(** * Hillslope linear diffusion of Badlands: [pyBadlands/hillslope/diffLinear.py]

    A shallow embedding of the class [diffLinear] and of the NumPy, Python and
    MPI operations its three methods use, followed by the properties of the
    methods.

    Numbers are IEEE 754 binary64 values, as the [float64] entries of the
    NumPy arrays and the Python floats of the source are: Rocq's primitive
    [float] with its primitive operations.  A one-dimensional array is the
    list of its entries; arrays handed to a method or returned by it live in
    a store and are named by references, so that aliasing and in-place
    writes are visible. *)

From Stdlib Require Import List ZArith Lia Bool Permutation Floats.
Import ListNotations.
Set Warnings "-inexact-float".

(** ** Classes of binary64 values *)

Module Binary64.

(** Finite values (zeros, subnormal and normal numbers of either sign). *)
Definition is_finite (x : float) : bool :=
  match classify x with
  | NaN | PInf | NInf => false
  | _ => true
  end.

(** The values [+0], positive numbers and [+infinity]: neither NaN nor
    negative nor [-0].  On them [<=?] is a total order whose equivalence is
    equality. *)
Definition is_ordered (x : float) : bool :=
  match classify x with
  | PZero | PSubn | PNormal | PInf => true
  | _ => false
  end.

(** A finite, strictly positive value. *)
Definition is_pos_finite (x : float) : bool :=
  match classify x with
  | PSubn | PNormal => true
  | _ => false
  end.

Definition sf_ordered (s : spec_float) : Prop :=
  match s with
  | S754_zero false | S754_infinity false | S754_finite false _ _ => True
  | _ => False
  end.

(** Rank of a specification float inside the ordered class: zero, then the
    finite numbers by exponent and mantissa, then infinity. *)
Definition sf_key (s : spec_float) : Z * Z * Z :=
  match s with
  | S754_zero _ => (0, 0, 0)%Z
  | S754_finite _ m e => (1, e, Zpos m)%Z
  | S754_infinity _ => (2, 0, 0)%Z
  | S754_nan => (3, 0, 0)%Z
  end.

Definition key_le (a b : Z * Z * Z) : Prop :=
  let '(c1, e1, m1) := a in
  let '(c2, e2, m2) := b in
  (c1 < c2 \/ (c1 = c2 /\ (e1 < e2 \/ (e1 = e2 /\ m1 <= m2))))%Z.

End Binary64.

(** ** Python values, exceptions and the builtin [max] *)

(** The exceptions the modelled operations raise.  [NameError] stands for
    the use of a reference that names no array of the store. *)
Inductive exn : Type :=
| IndexError
| ValueError
| NameError.

Inductive result (A : Type) : Type :=
| Ok (a : A)
| Raise (e : exn).
Arguments Ok {A} a.
Arguments Raise {A} e.

Definition ref : Type := nat.

(** What a method hands back to its caller. *)
Inductive pyval : Type :=
| PyNone
| PyFloat (x : float)
| PyArray (r : ref).

(** [max(a, b)] of Python: [a] is kept unless [b > a]. *)
Definition py_max (a b : float) : float :=
  if (a <? b)%float then b else a.

(** ** NumPy arrays *)

Module Numpy.

(** Entries in C (row-major) order. *)
Definition ndarray : Type := list float.

(** [numpy.zeros(n)] *)
Definition zeros (n : nat) : ndarray := repeat 0%float n.

(** [a.flatten()]: a copy of the entries, in row-major order. *)
Definition flatten (a : ndarray) : ndarray := a.

(** [a > c], [a >= c] and [a < c] against a scalar: boolean arrays. *)
Definition greater (a : ndarray) (c : float) : list bool :=
  map (fun x => (c <? x)%float) a.

Definition greater_equal (a : ndarray) (c : float) : list bool :=
  map (fun x => (c <=? x)%float) a.

Definition less (a : ndarray) (c : float) : list bool :=
  map (fun x => (x <? c)%float) a.

Fixpoint where_from (i : nat) (mask : list bool) : list nat :=
  match mask with
  | [] => []
  | b :: mask' =>
      if b then i :: where_from (S i) mask' else where_from (S i) mask'
  end.

(** [numpy.where(mask)] for a one-dimensional mask: the indices of its true
    entries, ascending. *)
Definition where_ (mask : list bool) : list nat := where_from 0 mask.

(** [a[ids]] with an index array: a new array; an index outside [a] raises
    [IndexError]. *)
Fixpoint take (a : ndarray) (ids : list nat) : result ndarray :=
  match ids with
  | [] => Ok []
  | i :: ids' =>
      match nth_error a i with
      | None => Raise IndexError
      | Some x =>
          match take a ids' with
          | Ok xs => Ok (x :: xs)
          | Raise e => Raise e
          end
      end
  end.

(** The entry at position [i] replaced by [v] (nothing out of range). *)
Fixpoint upd {A : Type} (i : nat) (v : A) (l : list A) : list A :=
  match l, i with
  | [], _ => []
  | _ :: t, O => v :: t
  | x :: t, S j => x :: upd j v t
  end.

(** [a[ids] = vals] with an index array: entry [ids[k]] becomes [vals[k]];
    an index outside [a] raises [IndexError].  The source only assigns
    value arrays of the length of the index array; other lengths, which
    NumPy broadcasts or rejects, are a [ValueError] here. *)
Fixpoint put (a : ndarray) (ids : list nat) (vals : ndarray) : result ndarray :=
  match ids, vals with
  | [], [] => Ok a
  | i :: ids', v :: vals' =>
      if (i <? length a)%nat then put (upd i v a) ids' vals'
      else Raise IndexError
  | _, _ => Raise ValueError
  end.

(** [a / b], entry by entry, for arrays of one length. *)
Fixpoint divide (a b : ndarray) : result ndarray :=
  match a, b with
  | [], [] => Ok []
  | x :: a', y :: b' =>
      match divide a' b' with
      | Ok q => Ok ((x / y)%float :: q)
      | Raise e => Raise e
      end
  | _, _ => Raise ValueError
  end.

(** [a * c] with a scalar. *)
Definition multiply (a : ndarray) (c : float) : ndarray :=
  map (fun x => (x * c)%float) a.

(** [a ** 2]: NumPy evaluates the power 2 as the square [x * x]. *)
Definition power2 (a : ndarray) : ndarray :=
  map (fun x => (x * x)%float) a.

(** The binary step of [numpy.minimum] in a reduction: NaN propagates. *)
Definition minimum (x y : float) : float :=
  if ((x <=? y)%float || is_nan x)%bool then x else y.

(** [numpy.amin(a)]: the reduction of [minimum]; an empty array raises
    [ValueError]. *)
Definition amin (a : ndarray) : result float :=
  match a with
  | [] => Raise ValueError
  | x :: a' => Ok (fold_left minimum a' x)
  end.

End Numpy.
Import Numpy.

(** ** The collective reduction *)

Module MPI.

(** [MPI.MIN] on two doubles, as the library computes it ([a < b ? a : b]
    on the accumulated and the incoming value): the accumulated value is
    kept when it is strictly smaller, the incoming one is taken otherwise.
    On [+0], positive numbers and [+infinity] this is the minimum.  MPI does
    not fix the result on NaN operands; the properties below that involve
    the values of peers are stated for ordered values. *)
Definition MIN (inout incoming : float) : float :=
  if (inout <? incoming)%float then inout else incoming.

(** [comm.Allreduce(MPI.IN_PLACE, buf, op=MPI.MIN)] on a one-entry buffer,
    seen from one process: [local] is its own entry, [peers] the entries
    the other processes of the communicator contribute in this round.  With
    a single process [peers] is empty and the buffer keeps its value. *)
Definition Allreduce_MIN (local : float) (peers : list float) : float :=
  fold_left MIN peers local.

End MPI.
Import MPI.

(** ** The object and the store *)

(** An instance of [diffLinear] once configured: [__init__] sets the three
    attributes to [None], the caller then assigns the two coefficients, and
    [CFL] stays [None] until a stability method stores a value. *)
Record diffLinear : Type := {
  CDaerial : float;
  CDmarine : float;
  CFL : option float
}.

Definition set_CFL (x : float) (d : diffLinear) : diffLinear :=
  {| CDaerial := CDaerial d; CDmarine := CDmarine d; CFL := Some x |}.

(** The state a method runs in: the instance [self] and the arrays of the
    process, addressed by reference. *)
Record world : Type := {
  self : diffLinear;
  heap : list ndarray
}.

(** Computations read and write the world and may raise; a raised
    exception keeps the world reached so far. *)
Definition M (A : Type) : Type := world -> result A * world.

Definition ret {A : Type} (a : A) : M A := fun w => (Ok a, w).

Definition bind {A B : Type} (m : M A) (f : A -> M B) : M B :=
  fun w =>
    match m w with
    | (Ok a, w') => f a w'
    | (Raise e, w') => (Raise e, w')
    end.

Notation "x <- m ;; k" := (bind m (fun x => k))
  (at level 61, m at next level, right associativity).
Notation "m ;;; k" := (bind m (fun _ => k))
  (at level 61, right associativity).

Definition lift {A : Type} (r : result A) : M A := fun w => (r, w).

Definition getattr {A : Type} (field : diffLinear -> A) : M A :=
  fun w => (Ok (field (self w)), w).

Definition setattr_CFL (x : float) : M unit :=
  fun w => (Ok tt, {| self := set_CFL x (self w); heap := heap w |}).

(** A new array object. *)
Definition alloc (a : ndarray) : M ref :=
  fun w => (Ok (length (heap w)),
            {| self := self w; heap := heap w ++ [a] |}).

Definition load (r : ref) : M ndarray :=
  fun w =>
    match nth_error (heap w) r with
    | Some a => (Ok a, w)
    | None => (Raise NameError, w)
    end.

Definition store (r : ref) (a : ndarray) : M unit :=
  fun w => (Ok tt, {| self := self w; heap := upd r a (heap w) |}).

(** [r[ids]] *)
Definition getitem (r : ref) (ids : list nat) : M ndarray :=
  a <- load r ;; lift (take a ids).

(** [r[ids] = vals], in place. *)
Definition setitem (r : ref) (ids : list nat) (vals : ndarray) : M unit :=
  a <- load r ;;
  a' <- lift (put a ids vals) ;;
  store r a'.

(** ** The methods of [diffLinear] *)

(** [dt_pstability(self, edgelen)].  [edgedist] and the one-entry buffer
    [CFL] never leave the method and are local values ([rank] and [size]
    are read and not used); the method has no [return] statement, so the
    caller receives [None]. *)
Definition dt_pstability (edgelen : ref) (peers : list float) : M pyval :=
  cda <- getattr CDaerial ;;
  cdm <- getattr CDmarine ;;
  let maxCD := py_max cda cdm in
  e <- load edgelen ;;
  let edgedist := flatten e in
  let distIDs := where_ (greater edgedist 0) in
  sel <- lift (take edgedist distIDs) ;;
  m <- lift (amin (power2 sel)) ;;
  let CFL0 := (0.05 * m / maxCD)%float in
  let CFL0 := Allreduce_MIN CFL0 peers in
  setattr_CFL CFL0 ;;;
  ret PyNone.

(** [dt_fstability(self, edgelen)].  The local value comes from the
    compiled routine [FLOWalgo.flowcompute.diffcfl], which is not part of
    the Python source: it is the parameter [diffcfl]. *)
Definition dt_fstability (diffcfl : ndarray -> float -> result float)
    (edgelen : ref) (peers : list float) : M pyval :=
  cda <- getattr CDaerial ;;
  cdm <- getattr CDmarine ;;
  let maxCD := py_max cda cdm in
  e <- load edgelen ;;
  dt <- lift (diffcfl e maxCD) ;;
  let CFL0 := dt in
  let CFL0 := Allreduce_MIN CFL0 peers in
  setattr_CFL CFL0 ;;;
  ret PyNone.

(** [sedflux(self, diff_flux, sea, elevation, area)].  Every use of an
    argument reads the array it names at that moment; [flux] is a new
    array, written in place three times and returned. *)
Definition sedflux (diff_flux : ref) (sea : float) (elevation area : ref)
    : M pyval :=
  elev <- load elevation ;;
  flux <- alloc (zeros (length elev)) ;;
  ar <- load area ;;
  let tmpIDs := where_ (greater ar 0) in
  num <- getitem diff_flux tmpIDs ;;
  den <- getitem area tmpIDs ;;
  quo <- lift (divide num den) ;;
  setitem flux tmpIDs quo ;;;
  elev <- load elevation ;;
  let dryIDs := where_ (greater_equal elev sea) in
  dry <- getitem flux dryIDs ;;
  cda <- getattr CDaerial ;;
  setitem flux dryIDs (multiply dry cda) ;;;
  elev <- load elevation ;;
  let wetIDs := where_ (less elev sea) in
  wet <- getitem flux wetIDs ;;
  cdm <- getattr CDmarine ;;
  setitem flux wetIDs (multiply wet cdm) ;;;
  ret (PyArray flux).

(** ** The formula of the specification *)

(** The strictly positive edge lengths and their squares. *)
Definition positive_lengths (edges : ndarray) : ndarray :=
  filter (fun l => (0 <? l)%float) edges.

Definition squared_positive_lengths (edges : ndarray) : ndarray :=
  map (fun l => (l * l)%float) (positive_lengths edges).

(** [m] is the minimum of [l]: an entry that is below every entry. *)
Definition is_minimum_of (m : float) (l : list float) : Prop :=
  In m l /\ forall y, In y l -> (m <=? y)%float = true.

(** Every entry is [+0], a positive number or [+infinity]. *)
Definition all_ordered (l : list float) : Prop :=
  Forall (fun x => Binary64.is_ordered x = true) l.

(** The smaller of two values, the way a scalar loop keeps a running
    minimum. *)
Definition running_min (acc x : float) : float :=
  if (x <? acc)%float then x else acc.

(** Modelled from the spec: the native kernel [FLOWalgo.flowcompute.diffcfl]
    (a compiled routine, absent from the Python source).  The specification
    gives StabilityFromKernel the contract of StabilityFromGeometry: the
    local candidate is [0.05 * min(length^2 for length in filtered) / maxCD]
    over the strictly positive lengths, here computed by one scalar pass; an
    input without a positive length, which the specification leaves
    undefined, is an error. *)
Definition diffcfl_spec (edges : ndarray) (maxCD : float) : result float :=
  match squared_positive_lengths edges with
  | [] => Raise ValueError
  | s :: rest => Ok (0.05 * fold_left running_min rest s / maxCD)%float
  end.

(** ** Closed forms of the runs *)

(** Some node with a positive area has no entry in [diff_flux] or in the
    result, which is as long as [elevation]. *)
Definition shape_fault (df elev ar : ndarray) : bool :=
  existsb (fun i => (length df <=? i)%nat || (length elev <=? i)%nat)
          (where_ (greater ar 0)).

(** The array [a] after [a[ids] = [g i for i in ids]], every index being
    inside [a]. *)
Definition assign (a : ndarray) (ids : list nat) (g : nat -> float) : ndarray :=
  fold_left (fun acc i => upd i (g i) acc) ids a.

(** The array the three masked assignments of [sedflux] build in [flux]. *)
Definition sedflux_array (cda cdm : float) (df : ndarray) (sea : float)
    (elev ar : ndarray) : ndarray :=
  let flux0 := zeros (length elev) in
  let flux1 := assign flux0 (where_ (greater ar 0))
                 (fun i => (nth i df 0 / nth i ar 0)%float) in
  let flux2 := assign flux1 (where_ (greater_equal elev sea))
                 (fun i => (nth i flux1 0 * cda)%float) in
  assign flux2 (where_ (less elev sea))
    (fun i => (nth i flux2 0 * cdm)%float).

(** The flux the source computes at one node. *)
Definition node_flux (cda cdm sea : float) (d e a : float) : float :=
  let raw := if (0 <? a)%float then (d / a)%float else 0%float in
  if (sea <=? e)%float then (raw * cda)%float
  else if (e <? sea)%float then (raw * cdm)%float
  else raw.

(** [m] keeps the attribute [field] of [self], whatever its outcome. *)
Definition keeps {A B : Type} (field : diffLinear -> A) (m : M B) : Prop :=
  forall w, field (self (snd (m w))) = field (self w).

(** ** Worlds of the examples *)

(** The wet/dry example: [diff_flux = [10, 10]], [elevation = [5, -2]],
    [area = [2, 2]], coefficients 0.1 and 0.5. *)
Definition wet_dry_world : world :=
  {| self := {| CDaerial := 0.1; CDmarine := 0.5; CFL := None |};
     heap := [[10; 10]; [5; -2]; [2; 2]]%float |}.

(** A node of zero area: [diff_flux = [7]], [elevation = [1]], [area = [0]]. *)
Definition zero_area_world : world :=
  {| self := {| CDaerial := 0.1; CDmarine := 0.5; CFL := None |};
     heap := [[7]; [1]; [0]]%float |}.

(** Sequences of different lengths: one accumulator entry and one area for
    two elevations. *)
Definition mismatched_world : world :=
  {| self := {| CDaerial := 0.1; CDmarine := 0.5; CFL := None |};
     heap := [[10]; [5; -2]; [2]]%float |}.

(** Edges [[0, 2, 3]] with coefficients 1 and 0. *)
Definition edges_world : world :=
  {| self := {| CDaerial := 1; CDmarine := 0; CFL := None |};
     heap := [[0; 2; 3]]%float |}.

(** The same edges with the marine coefficient the larger one: 0.25 and 1. *)
Definition marine_edges_world : world :=
  {| self := {| CDaerial := 0.25; CDmarine := 1; CFL := None |};
     heap := [[0; 2; 3]]%float |}.

(** The same edges with both coefficients zero. *)
Definition zero_coeff_world : world :=
  {| self := {| CDaerial := 0; CDmarine := 0; CFL := None |};
     heap := [[0; 2; 3]]%float |}.

(** Both coefficients zero, the aerial one negative: [-0.0] and [0.0]. *)
Definition negative_zero_coeff_world : world :=
  {| self := {| CDaerial := -0; CDmarine := 0; CFL := None |};
     heap := [[0; 2; 3]]%float |}.

(** Edges without a strictly positive length. *)
Definition no_edge_world : world :=
  {| self := {| CDaerial := 1; CDmarine := 0; CFL := Some 7%float |};
     heap := [[0; -1; 0]]%float |}.

(** * Properties *)

(** ** Facts on binary64 values *)

Section Binary64Facts.
Import Binary64.

Lemma is_ordered_sf x : is_ordered x = true <-> sf_ordered (Prim2SF x).
Proof.
  unfold is_ordered. rewrite classify_spec. unfold SF64classify, SFclassify.
  destruct (Prim2SF x) as [[|]|[|]| |[|] m e];
    try destruct (Z.eqb (Zpos (digits2_pos m)) prec); simpl; split; intros H;
    try exact I; try reflexivity; try discriminate; try contradiction.
Qed.

Lemma SFleb_key a b :
  sf_ordered a -> sf_ordered b ->
  (SFleb a b = true <-> key_le (sf_key a) (sf_key b)).
Proof.
  destruct a as [[|]|[|]| |[|] m1 e1], b as [[|]|[|]| |[|] m2 e2];
    simpl; try tauto; intros _ _; unfold SFleb; simpl;
    try (split; [intros _; lia | reflexivity]);
    try (split; [discriminate | lia]).
  rewrite Pos.compare_cont_spec. simpl.
  destruct (Z.compare_spec e1 e2); destruct (Pos.compare_spec m1 m2);
    split; try discriminate; try lia; try reflexivity.
Qed.

Lemma SFltb_key a b :
  sf_ordered a -> sf_ordered b ->
  (SFltb a b = true <-> ~ key_le (sf_key b) (sf_key a)).
Proof.
  destruct a as [[|]|[|]| |[|] m1 e1], b as [[|]|[|]| |[|] m2 e2];
    simpl; try tauto; intros _ _; unfold SFltb; simpl;
    try (split; [intros _; lia | reflexivity]);
    try (split; [discriminate | lia]).
  rewrite Pos.compare_cont_spec. simpl.
  destruct (Z.compare_spec e1 e2); destruct (Pos.compare_spec m1 m2);
    split; try discriminate; try lia; try reflexivity.
Qed.

Lemma sf_key_inj a b :
  sf_ordered a -> sf_ordered b -> sf_key a = sf_key b -> a = b.
Proof.
  destruct a as [[|]|[|]| |[|] m1 e1], b as [[|]|[|]| |[|] m2 e2];
    simpl; try tauto; intros _ _ H; try discriminate; try reflexivity.
  injection H as -> ->. reflexivity.
Qed.

Lemma key_le_total a b : key_le a b \/ key_le b a.
Proof. destruct a as [[c1 e1] m1], b as [[c2 e2] m2]; simpl; lia. Qed.

Lemma key_le_trans a b c : key_le a b -> key_le b c -> key_le a c.
Proof.
  destruct a as [[c1 e1] m1], b as [[c2 e2] m2], c as [[c3 e3] m3];
    simpl; lia.
Qed.

Lemma key_le_antisym a b : key_le a b -> key_le b a -> a = b.
Proof.
  destruct a as [[c1 e1] m1], b as [[c2 e2] m2]; simpl; intros H1 H2.
  assert (c1 = c2 /\ e1 = e2 /\ m1 = m2) as (-> & -> & ->) by lia.
  reflexivity.
Qed.

(** [<=?] is a total order on the ordered class. *)
Lemma leb_total x y :
  is_ordered x = true -> is_ordered y = true ->
  (x <=? y)%float = true \/ (y <=? x)%float = true.
Proof.
  rewrite !is_ordered_sf, !leb_spec. intros Hx Hy.
  rewrite !SFleb_key by assumption. apply key_le_total.
Qed.

Lemma leb_trans x y z :
  is_ordered x = true -> is_ordered y = true -> is_ordered z = true ->
  (x <=? y)%float = true -> (y <=? z)%float = true -> (x <=? z)%float = true.
Proof.
  rewrite !is_ordered_sf, !leb_spec. intros Hx Hy Hz.
  rewrite !SFleb_key by assumption. apply key_le_trans.
Qed.

Lemma leb_antisym x y :
  is_ordered x = true -> is_ordered y = true ->
  (x <=? y)%float = true -> (y <=? x)%float = true -> x = y.
Proof.
  rewrite !is_ordered_sf, !leb_spec. intros Hx Hy.
  rewrite !SFleb_key by assumption. intros H1 H2.
  apply Prim2SF_inj, sf_key_inj; auto using key_le_antisym.
Qed.

Lemma leb_refl x : is_ordered x = true -> (x <=? x)%float = true.
Proof.
  intros Hx. destruct (leb_total x x Hx Hx); assumption.
Qed.

(** On ordered values [y <? x] is the negation of [x <=? y]. *)
Lemma ltb_negb_leb x y :
  is_ordered x = true -> is_ordered y = true ->
  (y <? x)%float = negb (x <=? y)%float.
Proof.
  rewrite !is_ordered_sf. intros Hx Hy.
  pose proof (SFltb_key _ _ Hy Hx) as Hlt.
  pose proof (SFleb_key _ _ Hx Hy) as Hle.
  rewrite <- ltb_spec in Hlt. rewrite <- leb_spec in Hle.
  destruct (y <? x)%float, (x <=? y)%float; simpl; try reflexivity;
    intuition congruence.
Qed.

Lemma ordered_not_nan x : is_ordered x = true -> is_nan x = false.
Proof.
  rewrite is_ordered_sf. unfold is_nan. rewrite eqb_spec.
  destruct (Prim2SF x) as [[|]|[|]| |[|] m e]; simpl; try tauto; intros _;
    unfold SFeqb; simpl; try reflexivity.
  rewrite Z.compare_refl, Pos.compare_cont_refl. reflexivity.
Qed.

End Binary64Facts.

(** ** Rounding keeps the sign *)

Section RoundingFacts.
Import Binary64.

Lemma shr_1_nonneg mrs : (0 <= shr_m mrs)%Z -> (0 <= shr_m (shr_1 mrs))%Z.
Proof.
  destruct mrs as [m r s]; simpl.
  destruct m as [|[p|p|]|p]; simpl; lia.
Qed.

Lemma iter_shr_1_nonneg p : forall mrs,
  (0 <= shr_m mrs)%Z -> (0 <= shr_m (iter_pos shr_1 p mrs))%Z.
Proof.
  induction p as [p IH|p IH|]; intros mrs H; simpl.
  - apply IH, IH, shr_1_nonneg, H.
  - apply IH, IH, H.
  - apply shr_1_nonneg, H.
Qed.

Lemma shr_fexp_nonneg m e l :
  (0 <= m)%Z -> (0 <= shr_m (fst (shr_fexp prec emax m e l)))%Z.
Proof.
  intros H. unfold shr_fexp, shr.
  assert (H0 : (0 <= shr_m (shr_record_of_loc m l))%Z)
    by (destruct l as [|[| |]]; exact H).
  destruct (_ - e)%Z; simpl; auto using iter_shr_1_nonneg.
Qed.

Lemma round_nearest_even_nonneg m l :
  (0 <= m)%Z -> (0 <= round_nearest_even m l)%Z.
Proof.
  intros H. destruct l as [|[| |]]; simpl; try destruct (Z.even m); lia.
Qed.

(** Rounding a non-negative mantissa with the positive sign gives [+0], a
    positive number or [+infinity], never NaN. *)
Lemma binary_round_aux_ordered mx ex lx :
  (0 <= mx)%Z -> sf_ordered (binary_round_aux prec emax false mx ex lx).
Proof.
  intros H. unfold binary_round_aux.
  pose proof (shr_fexp_nonneg mx ex lx H) as H1.
  destruct (shr_fexp prec emax mx ex lx) as [mrs' e']. simpl in H1.
  pose proof (shr_fexp_nonneg _ e' loc_Exact
                (round_nearest_even_nonneg _ (loc_of_shr_record mrs') H1)) as H2.
  destruct (shr_fexp prec emax _ e' loc_Exact) as [mrs'' e'']. simpl in H2.
  destruct (shr_m mrs''); try lia; simpl; auto.
  destruct (Z.leb _ _); simpl; auto.
Qed.

Lemma SFdiv_core_nonneg m1 e1 m2 e2 :
  (0 <= fst (fst (SFdiv_core_binary prec emax (Zpos m1) e1 (Zpos m2) e2)))%Z.
Proof.
  unfold SFdiv_core_binary.
  set (s := (_ - _ - _)%Z).
  set (m' := match s with
             | Zpos _ => Z.shiftl (Zpos m1) s
             | Z0 => Zpos m1
             | Zneg _ => 0%Z
             end).
  assert (Hm : (0 <= m')%Z).
  { subst m'. destruct s; try lia. apply Z.shiftl_nonneg. lia. }
  pose proof (Z_div_mod m' (Zpos m2) ltac:(lia)) as Hd.
  destruct (Z.div_eucl m' (Zpos m2)) as [q r]. simpl. nia.
Qed.

(** A strictly positive value is a positive number or [+infinity]. *)
Lemma positive_sf x :
  (0 <? x)%float = true ->
  Prim2SF x = S754_infinity false \/
  exists m e, Prim2SF x = S754_finite false m e.
Proof.
  rewrite ltb_spec. change (Prim2SF 0) with (S754_zero false).
  destruct (Prim2SF x) as [[|]|[|]| |[|] m e]; unfold SFltb; simpl;
    try discriminate; eauto.
Qed.

Lemma square_ordered x : (0 <? x)%float = true -> is_ordered (x * x) = true.
Proof.
  intros H. apply is_ordered_sf. rewrite mul_spec.
  destruct (positive_sf x H) as [-> | (m & e & ->)]; simpl.
  - exact I.
  - apply binary_round_aux_ordered. lia.
Qed.

(** The safety factor times an ordered value is ordered. *)
Lemma scale_ordered m : is_ordered m = true -> is_ordered (0.05 * m) = true.
Proof.
  rewrite !is_ordered_sf, mul_spec.
  change (Prim2SF 0.05) with (S754_finite false 7205759403792794 (-57)).
  destruct (Prim2SF m) as [[|]|[|]| |[|] m1 e1]; simpl; try tauto.
  intros _. apply binary_round_aux_ordered. lia.
Qed.

Lemma pos_finite_sf x :
  is_pos_finite x = true -> exists m e, Prim2SF x = S754_finite false m e.
Proof.
  unfold is_pos_finite. rewrite classify_spec. unfold SF64classify, SFclassify.
  destruct (Prim2SF x) as [[|]|[|]| |[|] m e];
    try destruct (Z.eqb (Zpos (digits2_pos m)) prec);
    try discriminate; eauto.
Qed.

(** An ordered value divided by a positive number is ordered. *)
Lemma div_ordered x c :
  is_ordered x = true -> is_pos_finite c = true -> is_ordered (x / c) = true.
Proof.
  rewrite !is_ordered_sf, div_spec. intros Hx Hc.
  destruct (pos_finite_sf c Hc) as (m2 & e2 & ->).
  destruct (Prim2SF x) as [[|]|[|]| |[|] m1 e1]; simpl in *; try tauto.
  unfold SF64div, SFdiv.
  pose proof (SFdiv_core_nonneg m1 e1 m2 e2) as H.
  destruct (SFdiv_core_binary prec emax (Zpos m1) e1 (Zpos m2) e2)
    as [[mz ez] lz].
  apply binary_round_aux_ordered. exact H.
Qed.

(** [sea <= e] and [e < sea] never hold together. *)
Lemma leb_ltb_exclusive a b :
  (a <=? b)%float = true -> (b <? a)%float = false.
Proof.
  rewrite leb_spec, ltb_spec. unfold SFleb, SFltb.
  destruct (Prim2SF a) as [[|]|[|]| |[|] m1 e1],
           (Prim2SF b) as [[|]|[|]| |[|] m2 e2];
    simpl; try discriminate; try reflexivity;
    rewrite !Pos.compare_cont_spec; simpl;
    rewrite (Z.compare_antisym e1 e2), (Pos.compare_antisym m1 m2);
    destruct (e1 ?= e2)%Z, (m1 ?= m2)%positive; simpl;
    try discriminate; reflexivity.
Qed.

(** Zero times a finite value is a zero. *)
Lemma zero_mul_finite c :
  is_finite c = true -> (0 * c =? 0)%float = true.
Proof.
  unfold is_finite. rewrite classify_spec, eqb_spec, mul_spec.
  change (Prim2SF 0) with (S754_zero false).
  unfold SF64classify, SFclassify.
  destruct (Prim2SF c) as [[|]|[|]| |[|] m e];
    try destruct (Z.eqb (Zpos (digits2_pos m)) prec);
    try discriminate; reflexivity.
Qed.

End RoundingFacts.

(** ** Minima of ordered values *)

Section MinimumFacts.
Import Binary64.

(** On ordered values the three binary minima of the development are the
    same selection. *)
Lemma minimum_ordered x y :
  is_ordered x = true ->
  minimum x y = if (x <=? y)%float then x else y.
Proof.
  intros Hx. unfold minimum. rewrite (ordered_not_nan x Hx), orb_false_r.
  reflexivity.
Qed.

Lemma MIN_ordered x y :
  is_ordered x = true -> is_ordered y = true ->
  MIN x y = if (x <=? y)%float then x else y.
Proof.
  intros Hx Hy. unfold MIN. rewrite (ltb_negb_leb y x Hy Hx).
  destruct (y <=? x)%float eqn:Hyx, (x <=? y)%float eqn:Hxy; simpl;
    try reflexivity.
  - symmetry. apply leb_antisym; assumption.
  - destruct (leb_total x y Hx Hy); congruence.
Qed.

Lemma running_min_ordered x y :
  is_ordered x = true -> is_ordered y = true ->
  running_min x y = if (x <=? y)%float then x else y.
Proof.
  intros Hx Hy. unfold running_min. rewrite (ltb_negb_leb x y Hx Hy).
  destruct (x <=? y)%float; reflexivity.
Qed.

Lemma is_minimum_of_unique m m' l :
  all_ordered l -> is_minimum_of m l -> is_minimum_of m' l -> m = m'.
Proof.
  intros Hl [Hin Hle] [Hin' Hle'].
  unfold all_ordered in Hl. rewrite Forall_forall in Hl.
  apply leb_antisym; auto.
Qed.

Variable sel : float -> float -> float.
Hypothesis sel_spec : forall x y,
  is_ordered x = true -> is_ordered y = true ->
  sel x y = if (x <=? y)%float then x else y.

(** A left fold of a selecting minimum returns the minimum. *)
Lemma fold_sel_is_minimum l : forall x,
  all_ordered (x :: l) -> is_minimum_of (fold_left sel l x) (x :: l).
Proof.
  induction l as [|y l IH]; intros x Hall.
  - simpl. split; [left; reflexivity|].
    intros z [<- | []]. apply leb_refl. now inversion Hall.
  - inversion Hall as [|? ? Hx Hyl]; subst.
    inversion Hyl as [|? ? Hy Hl]; subst.
    simpl. rewrite (sel_spec x y Hx Hy).
    destruct (x <=? y)%float eqn:Hxy.
    + destruct (IH x (Forall_cons _ Hx Hl)) as [Hin Hle].
      split.
      * destruct Hin as [<- | Hin]; [left; reflexivity | right; right; exact Hin].
      * intros z [<- | [<- | Hz]].
        -- apply Hle. left; reflexivity.
        -- apply (leb_trans _ x); auto.
           ++ destruct Hin as [<- | Hin]; auto.
              unfold all_ordered in Hl. rewrite Forall_forall in Hl. auto.
           ++ apply Hle. left; reflexivity.
        -- apply Hle. right; exact Hz.
    + assert (Hyx : (y <=? x)%float = true).
      { destruct (leb_total x y Hx Hy) as [H | H]; congruence. }
      destruct (IH y (Forall_cons _ Hy Hl)) as [Hin Hle].
      split.
      * right. exact Hin.
      * intros z [<- | [<- | Hz]].
        -- apply (leb_trans _ y); auto.
           ++ destruct Hin as [<- | Hin]; auto.
              unfold all_ordered in Hl. rewrite Forall_forall in Hl. auto.
           ++ apply Hle. left; reflexivity.
        -- apply Hle. left; reflexivity.
        -- apply Hle. right; exact Hz.
Qed.

(** Hence the fold does not depend on the order of the entries. *)
Lemma fold_sel_permutation x l x' l' :
  all_ordered (x :: l) -> Permutation (x :: l) (x' :: l') ->
  fold_left sel l x = fold_left sel l' x'.
Proof.
  intros Hall Hperm.
  assert (Hall' : all_ordered (x' :: l'))
    by (eapply Permutation_Forall; eassumption).
  pose proof (fold_sel_is_minimum l x Hall) as [Hin Hle].
  pose proof (fold_sel_is_minimum l' x' Hall') as Hmin'.
  apply (is_minimum_of_unique _ _ (x' :: l') Hall'); [|exact Hmin'].
  split.
  - eapply Permutation_in; eassumption.
  - intros y Hy. apply Hle.
    eapply Permutation_in; [apply Permutation_sym|]; eassumption.
Qed.

End MinimumFacts.

(** ** Index arrays: [where], reading and assignment *)

Section ArrayFacts.

Lemma where_from_In mask : forall k i,
  In i (where_from k mask) <-> (k <= i /\ nth (i - k) mask false = true).
Proof.
  induction mask as [|b mask IH]; intros k i; simpl.
  - split; [tauto|]. intros [_ H]. destruct (i - k); discriminate.
  - assert (Hstep : forall j, In j (where_from (S k) mask) <->
                              (k < j /\ nth (j - k) (b :: mask) false = true)).
    { intros j. rewrite IH. split; intros [Hlt Hn]; split; try lia.
      - replace (j - k) with (S (j - S k)) by lia. exact Hn.
      - replace (j - k) with (S (j - S k)) in Hn by lia. exact Hn. }
    destruct b; simpl; rewrite ?Hstep.
    + split.
      * intros [<- | [Hlt Hn]]; [rewrite Nat.sub_diag; auto | split; [lia|exact Hn]].
      * intros [Hle Hn]. destruct (Nat.eq_dec k i) as [->|Hne]; [now left|].
        right. split; [lia | exact Hn].
    + split.
      * intros [Hlt Hn]. split; [lia | exact Hn].
      * intros [Hle Hn]. split; [|exact Hn].
        destruct (Nat.eq_dec k i) as [->|Hne]; [|lia].
        rewrite Nat.sub_diag in Hn. discriminate.
Qed.

Lemma where_In mask i : In i (where_ mask) <-> nth i mask false = true.
Proof.
  unfold where_. rewrite where_from_In, Nat.sub_0_r.
  split; [tauto | split; [lia | assumption]].
Qed.

Lemma where_lt mask i : In i (where_ mask) -> i < length mask.
Proof.
  rewrite where_In. intros H.
  destruct (Nat.lt_ge_cases i (length mask)) as [Hlt | Hge]; [exact Hlt|].
  rewrite nth_overflow in H by exact Hge. discriminate.
Qed.

(** The indices selected by a test on the entries. *)
Lemma where_map_In (p : float -> bool) a i :
  In i (where_ (map p a)) <-> (i < length a /\ p (nth i a 0%float) = true).
Proof.
  rewrite where_In. split.
  - intros H.
    assert (Hlt : i < length a).
    { destruct (Nat.lt_ge_cases i (length a)) as [Hlt | Hge]; [exact Hlt|].
      rewrite nth_overflow in H by (rewrite length_map; exact Hge).
      discriminate. }
    split; [exact Hlt|].
    rewrite (nth_indep _ false (p 0%float)) in H by (rewrite length_map; exact Hlt).
    rewrite map_nth in H. exact H.
  - intros [Hlt H].
    rewrite (nth_indep _ false (p 0%float)) by (rewrite length_map; exact Hlt).
    rewrite map_nth. exact H.
Qed.

Lemma take_in_range a ids :
  Forall (fun i => i < length a) ids ->
  take a ids = Ok (map (fun i => nth i a 0%float) ids).
Proof.
  induction 1 as [|i ids Hi _ IH]; simpl; [reflexivity|].
  destruct (nth_error a i) eqn:E.
  - rewrite IH. erewrite nth_error_nth by exact E. reflexivity.
  - apply nth_error_None in E. lia.
Qed.

Lemma take_out_of_range a ids :
  Exists (fun i => length a <= i) ids -> take a ids = Raise IndexError.
Proof.
  induction 1 as [i ids Hi | i ids _ IH]; simpl.
  - apply nth_error_None in Hi. rewrite Hi. reflexivity.
  - destruct (nth_error a i); [rewrite IH|]; reflexivity.
Qed.

Lemma take_from_where (p : float -> bool) a : forall pre,
  take (pre ++ a) (where_from (length pre) (map p a)) = Ok (filter p a).
Proof.
  induction a as [|x a IH]; intros pre; simpl; [reflexivity|].
  specialize (IH (pre ++ [x])).
  rewrite <- app_assoc, length_app, Nat.add_1_r in IH. simpl in IH.
  destruct (p x); simpl.
  - rewrite nth_error_app2, Nat.sub_diag by lia. simpl.
    rewrite IH. reflexivity.
  - exact IH.
Qed.

(** [a[numpy.where(p(a))]] is the subsequence of the entries that pass. *)
Lemma take_where (p : float -> bool) a :
  take a (where_ (map p a)) = Ok (filter p a).
Proof. exact (take_from_where p a []). Qed.

Lemma divide_map (f g : nat -> float) ids :
  divide (map f ids) (map g ids) = Ok (map (fun i => (f i / g i)%float) ids).
Proof.
  induction ids as [|i ids IH]; simpl; [reflexivity|].
  rewrite IH. reflexivity.
Qed.

Lemma multiply_map (f : nat -> float) c ids :
  multiply (map f ids) c = map (fun i => (f i * c)%float) ids.
Proof. unfold multiply. apply map_map. Qed.

Lemma length_upd {A : Type} i (v : A) l : length (upd i v l) = length l.
Proof.
  revert i. induction l as [|x l IH]; intros [|i]; simpl; auto.
Qed.

Lemma nth_upd_eq i v (l : ndarray) d : i < length l -> nth i (upd i v l) d = v.
Proof.
  revert i. induction l as [|x l IH]; intros [|i] H; simpl in *; try lia.
  - reflexivity.
  - apply IH. lia.
Qed.

Lemma nth_upd_ne i j v (l : ndarray) d : i <> j -> nth j (upd i v l) d = nth j l d.
Proof.
  revert i j. induction l as [|x l IH]; intros [|i] [|j] H; simpl;
    try reflexivity; try congruence.
  apply IH. congruence.
Qed.

Lemma upd_last {A : Type} (h : list A) x v :
  upd (length h) v (h ++ [x]) = h ++ [v].
Proof. induction h as [|y h IH]; simpl; [reflexivity | now rewrite IH]. Qed.

Lemma upd_swap {A : Type} i k (u v : A) l :
  i <> k -> upd k v (upd i u l) = upd i u (upd k v l).
Proof.
  revert i k. induction l as [|x l IH]; intros [|i] [|k] H; simpl;
    try reflexivity; try congruence.
  f_equal. apply IH. congruence.
Qed.

Lemma upd_overflow {A : Type} k (v : A) l : length l <= k -> upd k v l = l.
Proof.
  revert k. induction l as [|x l IH]; intros [|k] H; simpl in *;
    try reflexivity; try lia.
  f_equal. apply IH. lia.
Qed.

Lemma length_assign ids g : forall a, length (assign a ids g) = length a.
Proof.
  unfold assign. induction ids as [|i ids IH]; intros a; simpl; [reflexivity|].
  rewrite IH. apply length_upd.
Qed.

Lemma nth_assign_in ids g i : forall a,
  In i ids -> i < length a -> nth i (assign a ids g) 0%float = g i.
Proof.
  unfold assign. induction ids as [|j ids IH]; intros a Hin Hlt; [destruct Hin|].
  simpl. destruct (in_dec Nat.eq_dec i ids) as [Hin' | Hnin].
  - apply IH; [exact Hin' | rewrite length_upd; exact Hlt].
  - destruct Hin as [-> | Hin]; [|contradiction].
    clear IH. revert a Hlt. induction ids as [|k ids IH]; intros a Hlt; simpl.
    + apply nth_upd_eq. exact Hlt.
    + assert (Hk : k <> i) by (intros ->; apply Hnin; now left).
      destruct (Nat.lt_ge_cases k (length a)) as [Hkl | Hkl].
      * rewrite (upd_swap i k) by congruence. apply IH.
        -- intros H. apply Hnin. now right.
        -- rewrite length_upd. exact Hlt.
      * rewrite upd_overflow by (rewrite length_upd; exact Hkl).
        apply IH; [|exact Hlt].
        intros H. apply Hnin. now right.
Qed.

Lemma nth_assign_out ids g i : forall a,
  ~ In i ids -> nth i (assign a ids g) 0%float = nth i a 0%float.
Proof.
  unfold assign. induction ids as [|j ids IH]; intros a Hnin; [reflexivity|].
  simpl. rewrite IH by (intros H; apply Hnin; now right).
  apply nth_upd_ne. intros ->. apply Hnin. now left.
Qed.

Lemma put_in_range ids g : forall a,
  Forall (fun i => i < length a) ids ->
  put a ids (map g ids) = Ok (assign a ids g).
Proof.
  unfold assign. induction ids as [|i ids IH]; intros a H; simpl; [reflexivity|].
  inversion H as [|? ? Hi Hrest]; subst.
  apply Nat.ltb_lt in Hi. rewrite Hi. apply IH.
  rewrite length_upd. exact Hrest.
Qed.

Lemma put_out_of_range ids g : forall a,
  Exists (fun i => length a <= i) ids ->
  put a ids (map g ids) = Raise IndexError.
Proof.
  induction ids as [|i ids IH]; intros a H; [inversion H|].
  simpl. destruct (i <? length a) eqn:Hi; [|reflexivity].
  apply IH. rewrite length_upd.
  inversion H as [? ? Hge | ? ? Hex]; subst; [|exact Hex].
  apply Nat.ltb_lt in Hi. lia.
Qed.

End ArrayFacts.

(** ** Running the methods *)

Section Runs.

Lemma heap_old (h : list ndarray) r a x :
  nth_error h r = Some a -> nth_error (h ++ [x]) r = Some a.
Proof.
  intros H. rewrite nth_error_app1; [exact H|].
  apply nth_error_Some. congruence.
Qed.

Lemma heap_new (h : list ndarray) x : nth_error (h ++ [x]) (length h) = Some x.
Proof. rewrite nth_error_app2, Nat.sub_diag by lia. reflexivity. Qed.

Lemma shape_fault_false df elev ar :
  shape_fault df elev ar = false ->
  Forall (fun i => i < length df) (where_ (greater ar 0)) /\
  Forall (fun i => i < length elev) (where_ (greater ar 0)).
Proof.
  unfold shape_fault. intros H.
  split; apply Forall_forall; intros i Hi;
    destruct (Nat.lt_ge_cases i (length df)) as [H1 | H1];
    destruct (Nat.lt_ge_cases i (length elev)) as [H2 | H2]; try assumption;
    exfalso;
    (assert (Hex : existsb (fun i => (length df <=? i) || (length elev <=? i))
                     (where_ (greater ar 0)) = true);
     [apply existsb_exists; exists i; split; [exact Hi|];
      apply orb_true_iff; rewrite !Nat.leb_le; lia
     | congruence]).
Qed.

Lemma shape_fault_true df elev ar :
  shape_fault df elev ar = true ->
  Exists (fun i => length df <= i) (where_ (greater ar 0)) \/
  (Forall (fun i => i < length df) (where_ (greater ar 0)) /\
   Exists (fun i => length elev <= i) (where_ (greater ar 0))).
Proof.
  unfold shape_fault. intros H.
  destruct (Exists_dec (fun i => length df <= i) (where_ (greater ar 0)))
    as [Hex | Hnex].
  { intros i. destruct (le_dec (length df) i); auto. }
  - left. exact Hex.
  - right.
    assert (Hall : Forall (fun i => i < length df) (where_ (greater ar 0))).
    { apply Forall_forall. intros i Hi.
      destruct (Nat.lt_ge_cases i (length df)) as [H1 | H1]; [exact H1|].
      exfalso. apply Hnex. apply Exists_exists. eauto. }
    split; [exact Hall|].
    apply existsb_exists in H. destruct H as (i & Hi & Hor).
    apply Exists_exists. exists i. split; [exact Hi|].
    rewrite Forall_forall in Hall. specialize (Hall i Hi).
    apply orb_true_iff in Hor. rewrite !Nat.leb_le in Hor. lia.
Qed.

Variables (s : diffLinear) (h : list ndarray).
Variables (diff_flux elevation area : ref) (df elev ar : ndarray).
Variable sea : float.
Hypothesis Hdf : nth_error h diff_flux = Some df.
Hypothesis Helev : nth_error h elevation = Some elev.
Hypothesis Har : nth_error h area = Some ar.

(** Without a shape fault the three assignments go through. *)
Lemma sedflux_run :
  shape_fault df elev ar = false ->
  sedflux diff_flux sea elevation area {| self := s; heap := h |} =
  (Ok (PyArray (length h)),
   {| self := s;
      heap := h ++ [sedflux_array (CDaerial s) (CDmarine s) df sea elev ar] |}).
Proof.
  intros Hok. destruct (shape_fault_false _ _ _ Hok) as [Hin_df Hin_el].
  unfold sedflux, getitem, setitem, bind, load, alloc, store, lift, getattr, ret.
  cbn [heap self]. rewrite Helev. cbn [heap self].
  rewrite (heap_old _ _ _ _ Har). cbn [heap self].
  rewrite (heap_old _ _ _ _ Hdf).
  rewrite (take_in_range df _ Hin_df). cbn [heap self].
  rewrite (heap_old _ _ _ _ Har).
  rewrite take_in_range
    by (apply Forall_forall; intros i Hi; apply where_lt in Hi;
        unfold greater in Hi; rewrite length_map in Hi; exact Hi).
  rewrite divide_map. cbn [heap self]. rewrite heap_new.
  rewrite put_in_range
    by (unfold zeros; rewrite repeat_length; exact Hin_el).
  cbn [heap self]. rewrite upd_last, (heap_old _ _ _ _ Helev).
  cbn [heap self]. rewrite heap_new.
  set (flux1 := assign (zeros (length elev)) _ _).
  assert (Hl1 : length flux1 = length elev)
    by (subst flux1; rewrite length_assign; apply repeat_length).
  assert (Hdry : Forall (fun i => i < length flux1)
                        (where_ (greater_equal elev sea))).
  { apply Forall_forall. intros i Hi. apply where_lt in Hi.
    unfold greater_equal in Hi. rewrite length_map in Hi. lia. }
  rewrite (take_in_range flux1 _ Hdry), multiply_map.
  cbn [heap self]. rewrite heap_new, (put_in_range _ _ flux1 Hdry).
  cbn [heap self]. rewrite upd_last, (heap_old _ _ _ _ Helev).
  cbn [heap self]. rewrite heap_new.
  set (flux2 := assign flux1 _ _).
  assert (Hl2 : length flux2 = length elev)
    by (subst flux2; rewrite length_assign; exact Hl1).
  assert (Hwet : Forall (fun i => i < length flux2)
                        (where_ (less elev sea))).
  { apply Forall_forall. intros i Hi. apply where_lt in Hi.
    unfold less in Hi. rewrite length_map in Hi. lia. }
  rewrite (take_in_range flux2 _ Hwet), multiply_map.
  cbn [heap self]. rewrite heap_new, (put_in_range _ _ flux2 Hwet).
  cbn [heap self]. rewrite upd_last.
  reflexivity.
Qed.

(** With a shape fault the method raises [IndexError] while it fills
    [flux]; the inputs are as they were. *)
Lemma sedflux_fault :
  shape_fault df elev ar = true ->
  sedflux diff_flux sea elevation area {| self := s; heap := h |} =
  (Raise IndexError,
   {| self := s; heap := h ++ [zeros (length elev)] |}).
Proof.
  intros Hbad.
  unfold sedflux, getitem, setitem, bind, load, alloc, store, lift, getattr, ret.
  cbn [heap self]. rewrite Helev. cbn [heap self].
  rewrite (heap_old _ _ _ _ Har). cbn [heap self].
  rewrite (heap_old _ _ _ _ Hdf).
  destruct (shape_fault_true _ _ _ Hbad) as [Hex | [Hin_df Hex]].
  - rewrite (take_out_of_range df _ Hex). reflexivity.
  - rewrite (take_in_range df _ Hin_df). cbn [heap self].
    rewrite (heap_old _ _ _ _ Har).
    rewrite take_in_range
      by (apply Forall_forall; intros i Hi; apply where_lt in Hi;
          unfold greater in Hi; rewrite length_map in Hi; exact Hi).
    rewrite divide_map. cbn [heap self]. rewrite heap_new.
    rewrite put_out_of_range
      by (unfold zeros; rewrite repeat_length; exact Hex).
    reflexivity.
Qed.

End Runs.

(** ** The entries of the flux array *)

Section FluxEntries.

Variables (cda cdm sea : float) (df elev ar : ndarray).

Lemma positive_area_In i :
  In i (where_ (greater ar 0)) <-> (0 <? nth i ar 0)%float = true.
Proof.
  unfold greater. rewrite where_map_In. split; [tauto|].
  intros H. split; [|exact H].
  destruct (Nat.lt_ge_cases i (length ar)) as [Hlt | Hge]; [exact Hlt|].
  rewrite nth_overflow in H by exact Hge. discriminate.
Qed.

Lemma sedflux_array_length :
  length (sedflux_array cda cdm df sea elev ar) = length elev.
Proof.
  unfold sedflux_array, zeros. rewrite !length_assign. apply repeat_length.
Qed.

Lemma sedflux_array_nth i :
  i < length elev ->
  nth i (sedflux_array cda cdm df sea elev ar) 0%float =
  node_flux cda cdm sea (nth i df 0%float) (nth i elev 0%float) (nth i ar 0%float).
Proof.
  intros Hi. unfold sedflux_array, node_flux.
  set (flux0 := zeros (length elev)).
  set (flux1 := assign flux0 _ _).
  set (flux2 := assign flux1 _ _).
  assert (Hl0 : length flux0 = length elev) by apply repeat_length.
  assert (Hl1 : length flux1 = length elev)
    by (subst flux1; rewrite length_assign; exact Hl0).
  assert (Hl2 : length flux2 = length elev)
    by (subst flux2; rewrite length_assign; exact Hl1).
  assert (H1 : nth i flux1 0%float =
               if (0 <? nth i ar 0)%float
               then (nth i df 0 / nth i ar 0)%float else 0%float).
  { subst flux1. destruct (0 <? nth i ar 0)%float eqn:Hpos.
    - apply nth_assign_in; [apply positive_area_In; exact Hpos | lia].
    - rewrite nth_assign_out.
      + subst flux0. unfold zeros. apply nth_repeat.
      + rewrite positive_area_In. congruence. }
  assert (H2 : nth i flux2 0%float =
               if (sea <=? nth i elev 0)%float
               then (nth i flux1 0 * cda)%float else nth i flux1 0%float).
  { subst flux2. destruct (sea <=? nth i elev 0)%float eqn:Hdry.
    - apply (nth_assign_in _ (fun i => (nth i flux1 0 * cda)%float));
        [unfold greater_equal; apply where_map_In; auto | lia].
    - apply nth_assign_out. unfold greater_equal. rewrite where_map_In.
      intros [_ H]. congruence. }
  destruct (sea <=? nth i elev 0)%float eqn:Hdry.
  - rewrite nth_assign_out, H2, H1; [reflexivity|].
    unfold less. rewrite where_map_In. intros [_ H].
    rewrite (leb_ltb_exclusive _ _ Hdry) in H. discriminate.
  - destruct (nth i elev 0 <? sea)%float eqn:Hwet.
    + rewrite (nth_assign_in _ (fun i => (nth i flux2 0 * cdm)%float));
        [rewrite H2, H1; reflexivity
        | unfold less; apply where_map_In; auto | lia].
    + rewrite nth_assign_out, H2, H1; [reflexivity|].
      unfold less. rewrite where_map_In. intros [_ H]. congruence.
Qed.

End FluxEntries.

(** ** The stability methods *)

Section StabilityRuns.

Variables (s : diffLinear) (h : list ndarray) (edgelen : ref) (e : ndarray).
Variable peers : list float.
Hypothesis He : nth_error h edgelen = Some e.

(** The index pipeline of [dt_pstability] selects the strictly positive
    lengths and squares them. *)
Lemma dt_pstability_run :
  dt_pstability edgelen peers {| self := s; heap := h |} =
  match amin (squared_positive_lengths e) with
  | Ok m =>
      (Ok PyNone,
       {| self := set_CFL (Allreduce_MIN
                             (0.05 * m / py_max (CDaerial s) (CDmarine s)) peers) s;
          heap := h |})
  | Raise x => (Raise x, {| self := s; heap := h |})
  end.
Proof.
  unfold dt_pstability, bind, load, lift, getattr, setattr_CFL, ret, flatten.
  cbn [heap self]. rewrite He. unfold greater. rewrite take_where.
  change (power2 (filter (fun x => (0 <? x)%float) e))
    with (squared_positive_lengths e).
  destruct (amin (squared_positive_lengths e)); reflexivity.
Qed.

Lemma dt_fstability_run diffcfl :
  dt_fstability diffcfl edgelen peers {| self := s; heap := h |} =
  match diffcfl e (py_max (CDaerial s) (CDmarine s)) with
  | Ok dt =>
      (Ok PyNone,
       {| self := set_CFL (Allreduce_MIN dt peers) s; heap := h |})
  | Raise x => (Raise x, {| self := s; heap := h |})
  end.
Proof.
  unfold dt_fstability, bind, load, lift, getattr, setattr_CFL, ret.
  cbn [heap self]. rewrite He.
  destruct (diffcfl e _); reflexivity.
Qed.

End StabilityRuns.

Section SquaredLengths.

Lemma squared_positive_lengths_ordered e :
  all_ordered (squared_positive_lengths e).
Proof.
  unfold all_ordered, squared_positive_lengths, positive_lengths.
  apply Forall_map, Forall_forall. intros x Hx.
  apply filter_In in Hx. apply square_ordered. tauto.
Qed.

Lemma squared_positive_lengths_nonempty e :
  (exists x, In x e /\ (0 <? x)%float = true) ->
  squared_positive_lengths e <> [].
Proof.
  intros (x & Hin & Hpos) Hnil.
  assert (H : In (x * x)%float (squared_positive_lengths e)).
  { unfold squared_positive_lengths, positive_lengths.
    apply (in_map (fun l => (l * l)%float) _ x), filter_In. auto. }
  rewrite Hnil in H. exact H.
Qed.

Lemma squared_positive_lengths_empty e :
  (forall x, In x e -> (0 <? x)%float = false) ->
  squared_positive_lengths e = [].
Proof.
  intros H. unfold squared_positive_lengths, positive_lengths.
  induction e as [|x e IH]; simpl; [reflexivity|].
  rewrite (H x) by (left; reflexivity).
  apply IH. intros y Hy. apply H. right; exact Hy.
Qed.

Lemma squared_positive_lengths_permutation e1 e2 :
  Permutation e1 e2 ->
  Permutation (squared_positive_lengths e1) (squared_positive_lengths e2).
Proof.
  intros Hp. unfold squared_positive_lengths, positive_lengths.
  apply Permutation_map. induction Hp; simpl.
  - constructor.
  - destruct (0 <? x)%float; [constructor|]; assumption.
  - destruct (0 <? x)%float, (0 <? y)%float;
      try apply Permutation_refl. apply perm_swap.
  - eapply Permutation_trans; eassumption.
Qed.

(** [numpy.amin] of the squared positive lengths is their minimum. *)
Lemma amin_squared_is_minimum e :
  (exists x, In x e /\ (0 <? x)%float = true) ->
  exists m, amin (squared_positive_lengths e) = Ok m /\
            is_minimum_of m (squared_positive_lengths e).
Proof.
  intros Hex.
  pose proof (squared_positive_lengths_nonempty e Hex) as Hne.
  pose proof (squared_positive_lengths_ordered e) as Hord.
  destruct (squared_positive_lengths e) as [|x l]; [congruence|].
  exists (fold_left minimum l x). split; [reflexivity|].
  apply fold_sel_is_minimum; [|exact Hord].
  intros a b Ha _. apply minimum_ordered. exact Ha.
Qed.

End SquaredLengths.

(** ** What a method leaves untouched *)

Section Frames.

Context {A : Type} (field : diffLinear -> A).

Lemma keeps_ret {B : Type} (b : B) : keeps field (ret b).
Proof. intros w. reflexivity. Qed.

Lemma keeps_lift {B : Type} (r : result B) : keeps field (lift r).
Proof. intros w. reflexivity. Qed.

Lemma keeps_getattr {B : Type} (g : diffLinear -> B) : keeps field (getattr g).
Proof. intros w. reflexivity. Qed.

Lemma keeps_alloc a : keeps field (alloc a).
Proof. intros w. reflexivity. Qed.

Lemma keeps_load r : keeps field (load r).
Proof. intros w. unfold load. destruct (nth_error _ _); reflexivity. Qed.

Lemma keeps_store r a : keeps field (store r a).
Proof. intros w. reflexivity. Qed.

Lemma keeps_bind {B C : Type} (m : M B) (k : B -> M C) :
  keeps field m -> (forall b, keeps field (k b)) -> keeps field (bind m k).
Proof.
  intros Hm Hk w. unfold bind. specialize (Hm w).
  destruct (m w) as [[b | x] w']; simpl in *.
  - rewrite Hk. exact Hm.
  - exact Hm.
Qed.

Lemma keeps_getitem r ids : keeps field (getitem r ids).
Proof.
  unfold getitem. apply keeps_bind; [apply keeps_load|].
  intros a. apply keeps_lift.
Qed.

Lemma keeps_setitem r ids vals : keeps field (setitem r ids vals).
Proof.
  unfold setitem. apply keeps_bind; [apply keeps_load|]. intros a.
  apply keeps_bind; [apply keeps_lift|]. intros a'. apply keeps_store.
Qed.

End Frames.

Lemma keeps_setattr_CFL_aerial x : keeps CDaerial (setattr_CFL x).
Proof. intros w. reflexivity. Qed.

Lemma keeps_setattr_CFL_marine x : keeps CDmarine (setattr_CFL x).
Proof. intros w. reflexivity. Qed.

Create HintDb frame.
#[local] Hint Resolve keeps_ret keeps_lift keeps_getattr keeps_alloc keeps_load
  keeps_store keeps_getitem keeps_setitem
  keeps_setattr_CFL_aerial keeps_setattr_CFL_marine : frame.

Ltac frame_steps :=
  repeat (first [ apply keeps_bind; [ solve [auto with frame] | intros ? ]
                | solve [auto with frame] ]).

Lemma sedflux_keeps {A : Type} (field : diffLinear -> A) diff_flux sea elevation area :
  keeps field (sedflux diff_flux sea elevation area).
Proof. unfold sedflux. frame_steps. Qed.

Lemma dt_pstability_keeps_aerial edgelen peers :
  keeps CDaerial (dt_pstability edgelen peers).
Proof. unfold dt_pstability. frame_steps. Qed.

Lemma dt_pstability_keeps_marine edgelen peers :
  keeps CDmarine (dt_pstability edgelen peers).
Proof. unfold dt_pstability. frame_steps. Qed.

Lemma dt_fstability_keeps_aerial diffcfl edgelen peers :
  keeps CDaerial (dt_fstability diffcfl edgelen peers).
Proof. unfold dt_fstability. frame_steps. Qed.

Lemma dt_fstability_keeps_marine diffcfl edgelen peers :
  keeps CDmarine (dt_fstability diffcfl edgelen peers).
Proof. unfold dt_fstability. frame_steps. Qed.

(** ** Comparisons that involve NaN *)

Section NanFacts.

Lemma is_nan_sf x : is_nan x = true <-> Prim2SF x = S754_nan.
Proof.
  unfold is_nan. rewrite eqb_spec. unfold SFeqb.
  destruct (Prim2SF x) as [[|]|[|]| |[|] m e]; simpl;
    rewrite ?Z.compare_refl, ?Pos.compare_cont_refl; simpl;
    split; intros H; try discriminate; reflexivity.
Qed.

(** A comparison with a NaN operand is false. *)
Lemma nan_compares_false a b :
  (is_nan a || is_nan b)%bool = true ->
  (a <=? b)%float = false /\ (b <? a)%float = false.
Proof.
  rewrite orb_true_iff, !is_nan_sf, leb_spec, ltb_spec.
  unfold SFleb, SFltb. intros [-> | ->].
  - split; [reflexivity|]. destruct (Prim2SF b); reflexivity.
  - split; [|reflexivity]. destruct (Prim2SF a); reflexivity.
Qed.

(** Without NaN, [a <= b] or [b < a]. *)
Lemma leb_or_ltb a b :
  (is_nan a || is_nan b)%bool = false ->
  (a <=? b)%float = true \/ (b <? a)%float = true.
Proof.
  rewrite orb_false_iff. intros [Ha Hb].
  assert (Hna : Prim2SF a <> S754_nan)
    by (intros H; apply is_nan_sf in H; congruence).
  assert (Hnb : Prim2SF b <> S754_nan)
    by (intros H; apply is_nan_sf in H; congruence).
  rewrite leb_spec, ltb_spec. unfold SFleb, SFltb.
  destruct (Prim2SF a) as [[|]|[|]| |[|] m1 e1],
           (Prim2SF b) as [[|]|[|]| |[|] m2 e2];
    simpl; try congruence; auto;
    rewrite !Pos.compare_cont_spec; simpl;
    rewrite (Z.compare_antisym e1 e2), (Pos.compare_antisym m1 m2);
    destruct (e1 ?= e2)%Z, (m1 ?= m2)%positive; simpl; auto.
Qed.

Lemma leb_refl_not_nan a : is_nan a = false -> (a <=? a)%float = true.
Proof.
  intros Ha. destruct (leb_or_ltb a a) as [H | H].
  - rewrite Ha. reflexivity.
  - exact H.
  - destruct (a <=? a)%float eqn:E; [reflexivity|].
    assert (Hc : (a <? a)%float = false).
    { rewrite ltb_spec. unfold SFltb.
      destruct (Prim2SF a) as [[|]|[|]| |[|] m e]; simpl;
        rewrite ?Z.compare_refl, ?Pos.compare_cont_refl; reflexivity. }
    congruence.
Qed.

Lemma ltb_leb a b : (a <? b)%float = true -> (a <=? b)%float = true.
Proof.
  rewrite ltb_spec, leb_spec. unfold SFltb, SFleb.
  destruct (SFcompare (Prim2SF a) (Prim2SF b)) as [[| |]|];
    try discriminate; reflexivity.
Qed.

(** Between two values that are not NaN, Python's [max] returns one of
    them that is above both: the larger one. *)
Lemma py_max_larger a b :
  is_nan a = false -> is_nan b = false ->
  (py_max a b = a \/ py_max a b = b) /\
  (a <=? py_max a b)%float = true /\
  (b <=? py_max a b)%float = true.
Proof.
  intros Ha Hb. unfold py_max.
  destruct (a <? b)%float eqn:Hlt.
  - split; [right; reflexivity|].
    split; [apply ltb_leb; exact Hlt | apply leb_refl_not_nan; exact Hb].
  - split; [left; reflexivity|].
    split; [apply leb_refl_not_nan; exact Ha|].
    destruct (leb_or_ltb b a) as [H | H]; [rewrite Hb, Ha; reflexivity | exact H |].
    congruence.
Qed.

(** On non-negative numbers the larger of two is one value, and [max]
    returns it. *)
Lemma py_max_pinned a b mx :
  Binary64.is_ordered a = true -> Binary64.is_ordered b = true ->
  (mx = a \/ mx = b) ->
  (a <=? mx)%float = true -> (b <=? mx)%float = true ->
  py_max a b = mx.
Proof.
  intros Ha Hb Hmx Hamx Hbmx.
  destruct (py_max_larger a b (ordered_not_nan a Ha) (ordered_not_nan b Hb))
    as (Hor & Hpa & Hpb).
  assert (Hom : Binary64.is_ordered mx = true)
    by (destruct Hmx as [-> | ->]; assumption).
  assert (Hop : Binary64.is_ordered (py_max a b) = true)
    by (destruct Hor as [-> | ->]; assumption).
  apply leb_antisym; try assumption.
  - destruct Hor as [-> | ->]; assumption.
  - destruct Hmx as [-> | ->]; assumption.
Qed.

Lemma is_nan_opp x : is_nan (- x) = is_nan x.
Proof.
  destruct (is_nan x) eqn:Hx.
  - apply is_nan_sf. rewrite opp_spec. apply is_nan_sf in Hx.
    rewrite Hx. reflexivity.
  - destruct (is_nan (- x)) eqn:Hox; [|reflexivity].
    apply is_nan_sf in Hox. rewrite opp_spec in Hox.
    assert (H : Prim2SF x = S754_nan)
      by (destruct (Prim2SF x); try discriminate Hox; reflexivity).
    apply is_nan_sf in H. congruence.
Qed.

(** An ordered value divided by a zero of either sign: an infinity that has
    the sign of the zero, or NaN for [0 / 0]. *)
Lemma div_signed_zero x z :
  Binary64.is_ordered x = true -> (z =? 0)%float = true ->
  (x / z)%float = nan \/
  ((x / z)%float = infinity /\ z = 0%float) \/
  ((x / z)%float = neg_infinity /\ z = (-0)%float).
Proof.
  rewrite is_ordered_sf, eqb_spec. intros Hx Hz.
  change (Prim2SF 0) with (S754_zero false) in Hz.
  assert (H : Prim2SF (x / z) = Prim2SF nan \/
              (Prim2SF (x / z) = Prim2SF infinity /\ Prim2SF z = Prim2SF 0) \/
              (Prim2SF (x / z) = Prim2SF neg_infinity /\
               Prim2SF z = Prim2SF (-0))).
  { rewrite div_spec.
    change (Prim2SF 0) with (S754_zero false).
    change (Prim2SF (-0)) with (S754_zero true).
    change (Prim2SF infinity) with (S754_infinity false).
    change (Prim2SF neg_infinity) with (S754_infinity true).
    change (Prim2SF nan) with S754_nan.
    destruct (Prim2SF z) as [[|]|[|]| |[|] mz ez]; try discriminate Hz;
      destruct (Prim2SF x) as [[|]|[|]| |[|] m1 e1]; simpl in *; tauto. }
  destruct H as [H | [[H1 H2] | [H1 H2]]].
  - left. apply Prim2SF_inj, H.
  - right; left. split; apply Prim2SF_inj; assumption.
  - right; right. split; apply Prim2SF_inj; assumption.
Qed.

(** Two zeros: [max] returns the first. *)
Lemma py_max_zeros a b :
  (a =? 0)%float = true -> (b =? 0)%float = true -> py_max a b = a.
Proof.
  unfold py_max. rewrite !eqb_spec, ltb_spec.
  change (Prim2SF 0) with (S754_zero false).
  destruct (Prim2SF a) as [[|]|[|]| |[|] ma ea]; try discriminate;
    destruct (Prim2SF b) as [[|]|[|]| |[|] mb eb]; try discriminate;
    reflexivity.
Qed.

End NanFacts.

(** * The claims *)

(** ** Sediment flux *)

(** C1.  When the three sequences have one length, [sedflux] returns an array
    of that length whose entry [i] is [raw] times the aerial coefficient
    where [elevation[i] >= sea] and [raw] times the marine coefficient where
    [elevation[i] < sea], with [raw = diff_flux[i] / area[i]] where
    [area[i] > 0] and [raw = 0] elsewhere.  A node whose area is not
    positive, zero in particular, has a zero flux for all finite
    coefficients. *)
Theorem sedflux_per_node :
  forall (s : diffLinear) (h : list ndarray) (diff_flux elevation area : ref)
         (df elev ar : ndarray) (sea : float),
    nth_error h diff_flux = Some df ->
    nth_error h elevation = Some elev ->
    nth_error h area = Some ar ->
    length df = length elev ->
    length ar = length elev ->
    exists flux,
      sedflux diff_flux sea elevation area {| self := s; heap := h |} =
        (Ok (PyArray (length h)), {| self := s; heap := h ++ [flux] |}) /\
      length flux = length elev /\
      forall i, i < length elev ->
        let d := nth i df 0%float in
        let e := nth i elev 0%float in
        let a := nth i ar 0%float in
        let raw := if (0 <? a)%float then (d / a)%float else 0%float in
        ((sea <=? e)%float = true -> nth i flux 0%float = (raw * CDaerial s)%float) /\
        ((e <? sea)%float = true -> nth i flux 0%float = (raw * CDmarine s)%float) /\
        ((0 <? a)%float = false ->
         Binary64.is_finite (CDaerial s) = true ->
         Binary64.is_finite (CDmarine s) = true ->
         (nth i flux 0 =? 0)%float = true).
Proof.
  intros s h diff_flux elevation area df elev ar sea Hdf Helev Har Hld Hla.
  assert (Hok : shape_fault df elev ar = false).
  { unfold shape_fault. apply not_true_is_false. intros H.
    apply existsb_exists in H. destruct H as (i & Hi & Hor).
    apply where_lt in Hi. unfold greater in Hi. rewrite length_map in Hi.
    apply orb_true_iff in Hor. rewrite !Nat.leb_le in Hor. lia. }
  exists (sedflux_array (CDaerial s) (CDmarine s) df sea elev ar).
  split; [apply sedflux_run; assumption|].
  split; [apply sedflux_array_length|].
  intros i Hi. cbv zeta. rewrite (sedflux_array_nth _ _ _ _ _ _ i Hi).
  unfold node_flux. repeat split.
  - intros Hdry. rewrite Hdry. reflexivity.
  - intros Hwet.
    destruct (sea <=? nth i elev 0)%float eqn:Hdry.
    + rewrite (leb_ltb_exclusive _ _ Hdry) in Hwet. discriminate.
    + rewrite Hwet. reflexivity.
  - intros Ha Hfa Hfm. rewrite Ha.
    destruct (sea <=? nth i elev 0)%float; [apply zero_mul_finite, Hfa|].
    destruct (nth i elev 0 <? sea)%float; [apply zero_mul_finite, Hfm|].
    reflexivity.
Qed.

(** The wet/dry example of the specification: the flux is [[0.5, 2.5]]. *)
Lemma sedflux_per_node_witness :
  exists flux,
    sedflux 0 0 1 2 wet_dry_world =
      (Ok (PyArray 3),
       {| self := self wet_dry_world; heap := heap wet_dry_world ++ [flux] |}) /\
    length flux = 2 /\
    forall i, i < 2 ->
      let d := nth i [10; 10]%float 0%float in
      let e := nth i [5; -2]%float 0%float in
      let a := nth i [2; 2]%float 0%float in
      let raw := if (0 <? a)%float then (d / a)%float else 0%float in
      ((0 <=? e)%float = true -> nth i flux 0%float = (raw * 0.1)%float) /\
      ((e <? 0)%float = true -> nth i flux 0%float = (raw * 0.5)%float) /\
      ((0 <? a)%float = false ->
       Binary64.is_finite 0.1 = true ->
       Binary64.is_finite 0.5 = true ->
       (nth i flux 0 =? 0)%float = true).
Proof.
  exact (sedflux_per_node (self wet_dry_world) (heap wet_dry_world) 0 1 2
           [10; 10]%float [5; -2]%float [2; 2]%float 0%float
           eq_refl eq_refl eq_refl eq_refl eq_refl).
Defined.

Example sedflux_wet_dry :
  sedflux 0 0 1 2 wet_dry_world =
  (Ok (PyArray 3),
   {| self := self wet_dry_world;
      heap := heap wet_dry_world ++ [[0.5; 2.5]%float] |}).
Proof. vm_compute. reflexivity. Qed.

Example sedflux_zero_area :
  sedflux 0 0 1 2 zero_area_world =
  (Ok (PyArray 3),
   {| self := self zero_area_world;
      heap := heap zero_area_world ++ [[0]%float] |}).
Proof. vm_compute. reflexivity. Qed.

(** ** The stable timestep *)

(** C2.  When some edge length is strictly positive and no coefficient is
    NaN, the local candidate of [dt_pstability] is [0.05 * m / mx]: [m] is
    the minimum of the squares of the strictly positive lengths (zero and
    negative lengths take no part in it) and [mx] is the larger of
    [CDaerial] and [CDmarine], one of the two that is above both.  A
    single-process run stores the candidate; with peers that contribute
    non-negative numbers the minimum of the candidate and of theirs is
    stored. *)
Theorem dt_pstability_local_candidate :
  forall (s : diffLinear) (h : list ndarray) (edgelen : ref) (e : ndarray),
    nth_error h edgelen = Some e ->
    (exists x, In x e /\ (0 <? x)%float = true) ->
    is_nan (CDaerial s) = false ->
    is_nan (CDmarine s) = false ->
    exists m mx,
      is_minimum_of m (squared_positive_lengths e) /\
      (mx = CDaerial s \/ mx = CDmarine s) /\
      (CDaerial s <=? mx)%float = true /\
      (CDmarine s <=? mx)%float = true /\
      dt_pstability edgelen [] {| self := s; heap := h |} =
        (Ok PyNone,
         {| self := set_CFL (0.05 * m / mx) s; heap := h |}) /\
      (forall peers,
         all_ordered ((0.05 * m / mx)%float :: peers) ->
         exists g,
           dt_pstability edgelen peers {| self := s; heap := h |} =
             (Ok PyNone, {| self := set_CFL g s; heap := h |}) /\
           is_minimum_of g ((0.05 * m / mx)%float :: peers)).
Proof.
  intros s h edgelen e He Hex Hna Hnm.
  destruct (amin_squared_is_minimum e Hex) as (m & Hamin & Hmin).
  destruct (py_max_larger _ _ Hna Hnm) as (Hor & Hla & Hlm).
  exists m, (py_max (CDaerial s) (CDmarine s)).
  split; [exact Hmin|]. split; [exact Hor|].
  split; [exact Hla|]. split; [exact Hlm|]. split.
  - rewrite (dt_pstability_run s h edgelen e [] He), Hamin. reflexivity.
  - intros peers Hord.
    exists (Allreduce_MIN (0.05 * m / py_max (CDaerial s) (CDmarine s)) peers).
    rewrite (dt_pstability_run s h edgelen e peers He), Hamin.
    split; [reflexivity|].
    unfold Allreduce_MIN. apply fold_sel_is_minimum; [|exact Hord].
    intros a b Ha Hb. apply MIN_ordered; assumption.
Qed.

(** The edges [[0, 2, 3]] with coefficients 0.25 and 1: the divisor is the
    marine coefficient. *)
Lemma dt_pstability_local_candidate_witness :
  exists m mx,
    is_minimum_of m (squared_positive_lengths [0; 2; 3]%float) /\
    (mx = 0.25%float \/ mx = 1%float) /\
    (0.25 <=? mx)%float = true /\
    (1 <=? mx)%float = true /\
    dt_pstability 0 [] marine_edges_world =
      (Ok PyNone,
       {| self := set_CFL (0.05 * m / mx) (self marine_edges_world);
          heap := heap marine_edges_world |}) /\
    (forall peers,
       all_ordered ((0.05 * m / mx)%float :: peers) ->
       exists g,
         dt_pstability 0 peers marine_edges_world =
           (Ok PyNone, {| self := set_CFL g (self marine_edges_world);
                          heap := heap marine_edges_world |}) /\
         is_minimum_of g ((0.05 * m / mx)%float :: peers)).
Proof.
  apply (dt_pstability_local_candidate
           (self marine_edges_world) (heap marine_edges_world)
           0 [0; 2; 3]%float eq_refl).
  - exists 2%float. split; [right; left; reflexivity | reflexivity].
  - reflexivity.
  - reflexivity.
Defined.

(** With the marine coefficient the larger one the value is 0.2 as well. *)
Example dt_pstability_marine_edges :
  dt_pstability 0 [] marine_edges_world =
  (Ok PyNone,
   {| self := {| CDaerial := 0.25; CDmarine := 1; CFL := Some 0.2%float |};
      heap := heap marine_edges_world |}).
Proof. vm_compute. reflexivity. Qed.

(** The value of that example: 0.2, the zero edge being left out. *)
Example dt_pstability_edges :
  dt_pstability 0 [] edges_world =
  (Ok PyNone,
   {| self := {| CDaerial := 1; CDmarine := 0; CFL := Some 0.2%float |};
      heap := heap edges_world |}).
Proof. vm_compute. reflexivity. Qed.

(** Two processes: a peer candidate 0.12 against the local 0.2. *)
Example dt_pstability_two_processes :
  dt_pstability 0 [0.12%float] edges_world =
  (Ok PyNone,
   {| self := {| CDaerial := 1; CDmarine := 0; CFL := Some 0.12%float |};
      heap := heap edges_world |}).
Proof. vm_compute. reflexivity. Qed.

Section Kernel.

Lemma diffcfl_spec_amin e maxCD :
  diffcfl_spec e maxCD =
  match amin (squared_positive_lengths e) with
  | Ok m => Ok (0.05 * m / maxCD)%float
  | Raise x => Raise x
  end.
Proof.
  unfold diffcfl_spec, amin.
  pose proof (squared_positive_lengths_ordered e) as Hord.
  destruct (squared_positive_lengths e) as [|x l]; [reflexivity|].
  do 3 f_equal.
  apply (is_minimum_of_unique _ _ (x :: l) Hord).
  - apply fold_sel_is_minimum; [|exact Hord].
    intros a b Ha Hb. apply running_min_ordered; assumption.
  - apply fold_sel_is_minimum; [|exact Hord].
    intros a b Ha _. apply minimum_ordered. exact Ha.
Qed.

End Kernel.

(** C3.  With the kernel the specification describes, [dt_fstability] and
    [dt_pstability] end in the same outcome and the same stored timestep on
    every input with a strictly positive length, for the same coefficients
    and the same peers (none, in a single-process run): the two values are
    equal, hence within every tolerance. *)
Theorem dt_fstability_agrees_with_dt_pstability :
  forall (s : diffLinear) (h : list ndarray) (edgelen : ref) (e : ndarray)
         (peers : list float),
    nth_error h edgelen = Some e ->
    (exists x, In x e /\ (0 <? x)%float = true) ->
    dt_fstability diffcfl_spec edgelen peers {| self := s; heap := h |} =
      dt_pstability edgelen peers {| self := s; heap := h |} /\
    exists dt,
      CFL (self (snd (dt_pstability edgelen peers {| self := s; heap := h |})))
        = Some dt.
Proof.
  intros s h edgelen e peers He Hex.
  rewrite (dt_fstability_run s h edgelen e peers He),
          (dt_pstability_run s h edgelen e peers He), diffcfl_spec_amin.
  destruct (amin_squared_is_minimum e Hex) as (m & -> & _).
  split; [reflexivity|]. simpl. eauto.
Qed.

Lemma dt_fstability_agrees_with_dt_pstability_witness :
  dt_fstability diffcfl_spec 0 [] edges_world = dt_pstability 0 [] edges_world /\
  exists dt, CFL (self (snd (dt_pstability 0 [] edges_world))) = Some dt.
Proof.
  apply (dt_fstability_agrees_with_dt_pstability
           (self edges_world) (heap edges_world) 0 [0; 2; 3]%float []
           eq_refl).
  exists 2%float. split; [right; left; reflexivity | reflexivity].
Defined.

(** C4, as the source has it: a stability method that completes has stored
    the reduced minimum in [CFL] and hands [None] to its caller. *)
Theorem stability_stores_and_returns_none :
  forall (diffcfl : ndarray -> float -> result float)
         (s : diffLinear) (h : list ndarray) (edgelen : ref) (e : ndarray)
         (peers : list float),
    nth_error h edgelen = Some e ->
    let w := {| self := s; heap := h |} in
    let maxCD := py_max (CDaerial s) (CDmarine s) in
    (forall m, amin (power2 (positive_lengths e)) = Ok m ->
       dt_pstability edgelen peers w =
         (Ok PyNone,
          {| self := set_CFL (Allreduce_MIN (0.05 * m / maxCD) peers) s;
             heap := h |})) /\
    (forall dt, diffcfl e maxCD = Ok dt ->
       dt_fstability diffcfl edgelen peers w =
         (Ok PyNone,
          {| self := set_CFL (Allreduce_MIN dt peers) s; heap := h |})) /\
    (forall v w',
       dt_pstability edgelen peers w = (Ok v, w') \/
       dt_fstability diffcfl edgelen peers w = (Ok v, w') ->
       v = PyNone /\ exists dt, CFL (self w') = Some dt).
Proof.
  intros diffcfl s h edgelen e peers He w maxCD. subst w maxCD.
  rewrite (dt_pstability_run s h edgelen e peers He),
          (dt_fstability_run s h edgelen e peers He).
  change (power2 (positive_lengths e)) with (squared_positive_lengths e).
  repeat split.
  - intros m ->. reflexivity.
  - intros dt ->. reflexivity.
  - destruct H as [H | H].
    + destruct (amin (squared_positive_lengths e)); inversion H; reflexivity.
    + destruct (diffcfl e _); inversion H; reflexivity.
  - destruct H as [H | H].
    + destruct (amin (squared_positive_lengths e)); inversion H; simpl; eauto.
    + destruct (diffcfl e _); inversion H; simpl; eauto.
Qed.

Lemma stability_stores_and_returns_none_witness :
  let w := edges_world in
  let maxCD := py_max 1 0 in
  (forall m, amin (power2 (positive_lengths [0; 2; 3]%float)) = Ok m ->
     dt_pstability 0 [] w =
       (Ok PyNone,
        {| self := set_CFL (Allreduce_MIN (0.05 * m / maxCD) []) (self w);
           heap := heap w |})) /\
  (forall dt, diffcfl_spec [0; 2; 3]%float maxCD = Ok dt ->
     dt_fstability diffcfl_spec 0 [] w =
       (Ok PyNone,
        {| self := set_CFL (Allreduce_MIN dt []) (self w); heap := heap w |})) /\
  (forall v w',
     dt_pstability 0 [] w = (Ok v, w') \/
     dt_fstability diffcfl_spec 0 [] w = (Ok v, w') ->
     v = PyNone /\ exists dt, CFL (self w') = Some dt).
Proof.
  exact (stability_stores_and_returns_none diffcfl_spec
           (self edges_world) (heap edges_world) 0 [0; 2; 3]%float []
           eq_refl).
Defined.

(** The claim C4 as stated fails: on the edges [[0, 2, 3]] the method stores
    0.2 and returns [None], not the stored value. *)
Lemma dt_pstability_does_not_return_the_timestep :
  CFL (self (snd (dt_pstability 0 [] edges_world))) = Some 0.2%float /\
  fst (dt_pstability 0 [] edges_world) = Ok PyNone /\
  fst (dt_pstability 0 [] edges_world) <> Ok (PyFloat 0.2).
Proof.
  split; [vm_compute; reflexivity | split].
  - vm_compute. reflexivity.
  - vm_compute. discriminate.
Qed.

(** ** Error cases *)

Section ShapeFault.

Lemma shape_fault_iff df elev ar :
  shape_fault df elev ar = true <->
  exists i, (0 <? nth i ar 0)%float = true /\
            (length df <= i \/ length elev <= i).
Proof.
  unfold shape_fault. rewrite existsb_exists. split.
  - intros (i & Hi & Hor). exists i.
    apply positive_area_In in Hi. split; [exact Hi|].
    apply orb_true_iff in Hor. rewrite !Nat.leb_le in Hor. exact Hor.
  - intros (i & Hi & Hor). exists i.
    split; [apply positive_area_In; exact Hi|].
    apply orb_true_iff. rewrite !Nat.leb_le. exact Hor.
Qed.

End ShapeFault.

(** C5, as the source has it: [sedflux] compares no lengths.  It raises
    [IndexError], while filling the result, exactly when a node of positive
    area has no entry in [diff_flux] or lies beyond [elevation]; in every
    other case, equal lengths or not, it returns an array as long as
    [elevation]. *)
Theorem sedflux_has_no_shape_check :
  forall (s : diffLinear) (h : list ndarray) (diff_flux elevation area : ref)
         (df elev ar : ndarray) (sea : float),
    nth_error h diff_flux = Some df ->
    nth_error h elevation = Some elev ->
    nth_error h area = Some ar ->
    let run := sedflux diff_flux sea elevation area {| self := s; heap := h |} in
    let fault := exists i, (0 <? nth i ar 0)%float = true /\
                           (length df <= i \/ length elev <= i) in
    (fault -> fst run = Raise IndexError) /\
    (~ fault ->
       exists flux,
         run = (Ok (PyArray (length h)), {| self := s; heap := h ++ [flux] |}) /\
         length flux = length elev).
Proof.
  intros s h diff_flux elevation area df elev ar sea Hdf Helev Har run fault.
  subst run fault. split.
  - intros Hf. apply shape_fault_iff in Hf.
    rewrite (sedflux_fault s h _ _ _ df elev ar sea Hdf Helev Har Hf).
    reflexivity.
  - intros Hnf.
    assert (Hok : shape_fault df elev ar = false).
    { apply not_true_is_false. intros H. apply Hnf, shape_fault_iff, H. }
    exists (sedflux_array (CDaerial s) (CDmarine s) df sea elev ar).
    split; [apply sedflux_run; assumption | apply sedflux_array_length].
Qed.

Lemma sedflux_has_no_shape_check_witness :
  let run := sedflux 0 0 1 2 mismatched_world in
  let fault := exists i, (0 <? nth i [2]%float 0)%float = true /\
                         (length [10]%float <= i \/ length [5; -2]%float <= i) in
  (fault -> fst run = Raise IndexError) /\
  (~ fault ->
     exists flux,
       run = (Ok (PyArray 3),
              {| self := self mismatched_world;
                 heap := heap mismatched_world ++ [flux] |}) /\
       length flux = 2).
Proof.
  exact (sedflux_has_no_shape_check
           (self mismatched_world) (heap mismatched_world) 0 1 2
           [10]%float [5; -2]%float [2]%float 0%float eq_refl eq_refl eq_refl).
Defined.

(** The claim C5 as stated fails: with one accumulator entry and one area
    for two elevations, [sedflux] raises nothing and returns [[0.5, 0]]. *)
Lemma sedflux_accepts_mismatched_lengths :
  length [10]%float <> length [5; -2]%float /\
  sedflux 0 0 1 2 mismatched_world =
  (Ok (PyArray 3),
   {| self := self mismatched_world;
      heap := heap mismatched_world ++ [[0.5; 0]%float] |}).
Proof.
  split; [discriminate | vm_compute; reflexivity].
Qed.

(** C6, as the source has it: with both coefficients zero, of either sign,
    [dt_pstability] raises nothing.  On edges with a strictly positive
    length the call completes, whatever the peers contribute; its local
    candidate, which a single-process run stores, is an infinity with the
    sign of the zero [CDaerial] (the one [max] returns), or NaN when the
    smallest square underflows to zero. *)
Theorem dt_pstability_zero_coefficients :
  forall (s : diffLinear) (h : list ndarray) (edgelen : ref) (e : ndarray),
    (CDaerial s =? 0)%float = true ->
    (CDmarine s =? 0)%float = true ->
    nth_error h edgelen = Some e ->
    (exists x, In x e /\ (0 <? x)%float = true) ->
    exists c,
      (c = nan \/
       (c = infinity /\ CDaerial s = 0%float) \/
       (c = neg_infinity /\ CDaerial s = (-0)%float)) /\
      dt_pstability edgelen [] {| self := s; heap := h |} =
        (Ok PyNone, {| self := set_CFL c s; heap := h |}) /\
      (forall peers, exists g,
         dt_pstability edgelen peers {| self := s; heap := h |} =
           (Ok PyNone, {| self := set_CFL g s; heap := h |})).
Proof.
  intros s h edgelen e Ha Hm He Hex.
  destruct (amin_squared_is_minimum e Hex) as (m & Hamin & Hin & _).
  exists (0.05 * m / CDaerial s)%float. split; [|split].
  - apply div_signed_zero; [|exact Ha]. apply scale_ordered.
    pose proof (squared_positive_lengths_ordered e) as Hord.
    unfold all_ordered in Hord. rewrite Forall_forall in Hord. auto.
  - rewrite (dt_pstability_run s h edgelen e [] He), Hamin,
            (py_max_zeros _ _ Ha Hm).
    reflexivity.
  - intros peers. eexists.
    rewrite (dt_pstability_run s h edgelen e peers He), Hamin. reflexivity.
Qed.

Lemma dt_pstability_zero_coefficients_witness :
  exists c,
    (c = nan \/
     (c = infinity /\ (-0)%float = 0%float) \/
     (c = neg_infinity /\ (-0)%float = (-0)%float)) /\
    dt_pstability 0 [] negative_zero_coeff_world =
      (Ok PyNone,
       {| self := set_CFL c (self negative_zero_coeff_world);
          heap := heap negative_zero_coeff_world |}) /\
    (forall peers, exists g,
       dt_pstability 0 peers negative_zero_coeff_world =
         (Ok PyNone,
          {| self := set_CFL g (self negative_zero_coeff_world);
             heap := heap negative_zero_coeff_world |})).
Proof.
  apply (dt_pstability_zero_coefficients
           (self negative_zero_coeff_world) (heap negative_zero_coeff_world) 0
           [0; 2; 3]%float eq_refl eq_refl eq_refl).
  exists 2%float. split; [right; left; reflexivity | reflexivity].
Defined.

(** With [CDaerial = -0.0] the stored value is [-infinity]; an edge whose
    square underflows gives NaN. *)
Example dt_pstability_negative_zero :
  CFL (self (snd (dt_pstability 0 [] negative_zero_coeff_world))) =
    Some neg_infinity /\
  CFL (self (snd (dt_pstability 0 []
         {| self := {| CDaerial := 0; CDmarine := 0; CFL := None |};
            heap := [[1e-200]%float] |}))) = Some nan.
Proof. split; vm_compute; reflexivity. Qed.

(** The claim C6 as stated fails: with both coefficients zero the call on
    the edges [[0, 2, 3]] completes and stores [+infinity]. *)
Lemma dt_pstability_zero_coefficients_store_infinity :
  CDaerial (self zero_coeff_world) = 0%float /\
  CDmarine (self zero_coeff_world) = 0%float /\
  dt_pstability 0 [] zero_coeff_world =
  (Ok PyNone,
   {| self := {| CDaerial := 0; CDmarine := 0; CFL := Some infinity |};
      heap := heap zero_coeff_world |}).
Proof.
  split; [reflexivity | split; [reflexivity | vm_compute; reflexivity]].
Qed.

(** C7.  Edges without a strictly positive length make [dt_pstability] raise
    ([ValueError], from the minimum of an empty array): nothing is returned,
    and the instance and the arrays are as before the call. *)
Theorem dt_pstability_no_positive_length :
  forall (s : diffLinear) (h : list ndarray) (edgelen : ref) (e : ndarray)
         (peers : list float),
    nth_error h edgelen = Some e ->
    (forall x, In x e -> (0 <? x)%float = false) ->
    dt_pstability edgelen peers {| self := s; heap := h |} =
      (Raise ValueError, {| self := s; heap := h |}).
Proof.
  intros s h edgelen e peers He Hnone.
  rewrite (dt_pstability_run s h edgelen e peers He).
  rewrite (squared_positive_lengths_empty e Hnone). reflexivity.
Qed.

Lemma dt_pstability_no_positive_length_witness :
  dt_pstability 0 [0.12%float] no_edge_world =
    (Raise ValueError, no_edge_world).
Proof.
  apply (dt_pstability_no_positive_length
           (self no_edge_world) (heap no_edge_world) 0 [0; -1; 0]%float
           [0.12%float] eq_refl).
  intros x [<- | [<- | [<- | []]]]; reflexivity.
Defined.

(** ** Order of the inputs *)

Section LocalCandidate.

(** With a positive, finite larger coefficient the local candidate of
    [dt_pstability] is [+0], a positive number or [+infinity]. *)
Lemma local_candidate_ordered e m maxCD :
  In m (squared_positive_lengths e) ->
  Binary64.is_pos_finite maxCD = true ->
  Binary64.is_ordered (0.05 * m / maxCD) = true.
Proof.
  intros Hin Hc. apply div_ordered; [|exact Hc]. apply scale_ordered.
  pose proof (squared_positive_lengths_ordered e) as Hord.
  unfold all_ordered in Hord. rewrite Forall_forall in Hord. auto.
Qed.

Lemma amin_squared_permutation e1 e2 :
  Permutation e1 e2 ->
  amin (squared_positive_lengths e1) = amin (squared_positive_lengths e2).
Proof.
  intros Hp. apply squared_positive_lengths_permutation in Hp.
  pose proof (squared_positive_lengths_ordered e1) as Hord.
  unfold amin.
  destruct (squared_positive_lengths e1) as [|x1 l1],
           (squared_positive_lengths e2) as [|x2 l2].
  - reflexivity.
  - apply Permutation_nil in Hp. discriminate.
  - apply Permutation_sym, Permutation_nil in Hp. discriminate.
  - f_equal. apply fold_sel_permutation; try assumption.
    intros a b Ha _. apply minimum_ordered. exact Ha.
Qed.

End LocalCandidate.

(** C8.  [dt_pstability] gives the same outcome and the same stored
    timestep on edge sequences that are permutations of each other; the
    reduction gives the same value on every ordering of the candidates of
    the processes, these being non-negative numbers; and the local
    candidates the method contributes are such numbers when the larger
    coefficient is positive and finite. *)
Theorem dt_pstability_order_invariant :
  (forall (s : diffLinear) (h1 h2 : list ndarray) (r1 r2 : ref)
          (e1 e2 : ndarray) (peers : list float),
     nth_error h1 r1 = Some e1 ->
     nth_error h2 r2 = Some e2 ->
     Permutation e1 e2 ->
     let run1 := dt_pstability r1 peers {| self := s; heap := h1 |} in
     let run2 := dt_pstability r2 peers {| self := s; heap := h2 |} in
     fst run1 = fst run2 /\ self (snd run1) = self (snd run2)) /\
  (forall (c1 c2 : float) (p1 p2 : list float),
     all_ordered (c1 :: p1) ->
     Permutation (c1 :: p1) (c2 :: p2) ->
     Allreduce_MIN c1 p1 = Allreduce_MIN c2 p2) /\
  (forall (s : diffLinear) (h : list ndarray) (r : ref) (e : ndarray),
     nth_error h r = Some e ->
     Binary64.is_pos_finite (py_max (CDaerial s) (CDmarine s)) = true ->
     forall v w',
       dt_pstability r [] {| self := s; heap := h |} = (Ok v, w') ->
       exists c, CFL (self w') = Some c /\ Binary64.is_ordered c = true).
Proof.
  split; [|split].
  - intros s h1 h2 r1 r2 e1 e2 peers H1 H2 Hp run1 run2. subst run1 run2.
    rewrite (dt_pstability_run s h1 r1 e1 peers H1),
            (dt_pstability_run s h2 r2 e2 peers H2),
            (amin_squared_permutation e1 e2 Hp).
    destruct (amin (squared_positive_lengths e2)); split; reflexivity.
  - intros c1 c2 p1 p2 Hord Hp. unfold Allreduce_MIN.
    apply fold_sel_permutation; try assumption.
    intros a b Ha Hb. apply MIN_ordered; assumption.
  - intros s h r e He Hc v w' Hrun.
    rewrite (dt_pstability_run s h r e [] He) in Hrun.
    destruct (amin (squared_positive_lengths e)) as [m|x] eqn:Hamin;
      [|discriminate].
    inversion Hrun; subst. simpl. eexists. split; [reflexivity|].
    apply (local_candidate_ordered e); [|exact Hc].
    unfold amin in Hamin.
    pose proof (squared_positive_lengths_ordered e) as Hord.
    destruct (squared_positive_lengths e) as [|x l]; [discriminate|].
    inversion Hamin; subst.
    apply (fold_sel_is_minimum minimum); [|exact Hord].
    intros a b Ha _. apply minimum_ordered. exact Ha.
Qed.

(** Two processes with the candidates 0.3 and 0.12: both orders reduce to
    0.12. *)
Lemma dt_pstability_order_invariant_witness :
  Allreduce_MIN 0.3 [0.12%float] = Allreduce_MIN 0.12 [0.3%float].
Proof.
  apply (proj1 (proj2 dt_pstability_order_invariant)).
  - repeat constructor.
  - apply perm_swap.
Defined.

Example allreduce_two_processes :
  Allreduce_MIN 0.3 [0.12%float] = 0.12%float /\
  Allreduce_MIN 0.12 [0.3%float] = 0.12%float.
Proof. split; vm_compute; reflexivity. Qed.

(** ** Frame properties *)

(** C9.  Whatever the outcome of [sedflux], every array that existed before
    the call, the three inputs among them, is unchanged after it.  A
    returned value is a new array object, as long as [elevation], and with
    sequences of one length the call does return. *)
Theorem sedflux_fresh_result :
  forall (s : diffLinear) (h : list ndarray) (diff_flux elevation area : ref)
         (df elev ar : ndarray) (sea : float),
    nth_error h diff_flux = Some df ->
    nth_error h elevation = Some elev ->
    nth_error h area = Some ar ->
    let run := sedflux diff_flux sea elevation area {| self := s; heap := h |} in
    (forall r a, nth_error h r = Some a ->
                 nth_error (heap (snd run)) r = Some a) /\
    (forall v, fst run = Ok v ->
       exists flux out,
         v = PyArray flux /\
         nth_error h flux = None /\
         nth_error (heap (snd run)) flux = Some out /\
         length out = length elev) /\
    (length df = length elev -> length ar = length elev ->
     exists flux, fst run = Ok (PyArray flux)).
Proof.
  intros s h diff_flux elevation area df elev ar sea Hdf Helev Har run.
  subst run. destruct (shape_fault df elev ar) eqn:Hsf.
  - rewrite (sedflux_fault s h _ _ _ df elev ar sea Hdf Helev Har Hsf).
    cbn [fst snd heap]. split; [|split].
    + intros r a Hr. apply heap_old. exact Hr.
    + intros v Hv. discriminate.
    + intros Hld Hla. exfalso.
      apply shape_fault_iff in Hsf. destruct Hsf as (i & Hi & Hor).
      apply positive_area_In, where_lt in Hi.
      unfold greater in Hi. rewrite length_map in Hi. lia.
  - rewrite (sedflux_run s h _ _ _ df elev ar sea Hdf Helev Har Hsf).
    cbn [fst snd heap]. split; [|split].
    + intros r a Hr. apply heap_old. exact Hr.
    + intros v Hv. inversion Hv; subst.
      exists (length h), (sedflux_array (CDaerial s) (CDmarine s) df sea elev ar).
      split; [reflexivity|]. split; [apply nth_error_None; lia|].
      split; [apply heap_new | apply sedflux_array_length].
    + intros _ _. eauto.
Qed.

Lemma sedflux_fresh_result_witness :
  let run := sedflux 0 0 1 2 wet_dry_world in
  (forall r a, nth_error (heap wet_dry_world) r = Some a ->
               nth_error (heap (snd run)) r = Some a) /\
  (forall v, fst run = Ok v ->
     exists flux out,
       v = PyArray flux /\
       nth_error (heap wet_dry_world) flux = None /\
       nth_error (heap (snd run)) flux = Some out /\
       length out = 2) /\
  (length [10; 10]%float = 2 -> length [2; 2]%float = 2 ->
   exists flux, fst run = Ok (PyArray flux)).
Proof.
  exact (sedflux_fresh_result (self wet_dry_world) (heap wet_dry_world) 0 1 2
           [10; 10]%float [5; -2]%float [2; 2]%float 0%float
           eq_refl eq_refl eq_refl).
Defined.

(** An input passed twice is left alone as well: the accumulator used as
    its own area. *)
Example sedflux_aliased_inputs :
  heap (snd (sedflux 0 0 1 0 wet_dry_world)) =
  heap wet_dry_world ++ [[0.1; 0.5]%float].
Proof. vm_compute. reflexivity. Qed.

(** C10.  No method changes [CDaerial] or [CDmarine], on any input and
    whatever the outcome; [sedflux] leaves [CFL] as it is too. *)
Theorem methods_keep_coefficients :
  forall (diffcfl : ndarray -> float -> result float)
         (edgelen : ref) (peers : list float)
         (diff_flux : ref) (sea : float) (elevation area : ref) (w : world),
    let wp := snd (dt_pstability edgelen peers w) in
    let wf := snd (dt_fstability diffcfl edgelen peers w) in
    let ws := snd (sedflux diff_flux sea elevation area w) in
    (CDaerial (self wp) = CDaerial (self w) /\
     CDmarine (self wp) = CDmarine (self w)) /\
    (CDaerial (self wf) = CDaerial (self w) /\
     CDmarine (self wf) = CDmarine (self w)) /\
    (CDaerial (self ws) = CDaerial (self w) /\
     CDmarine (self ws) = CDmarine (self w) /\
     CFL (self ws) = CFL (self w)).
Proof.
  intros diffcfl edgelen peers diff_flux sea elevation area w wp wf ws.
  subst wp wf ws. repeat split.
  - apply dt_pstability_keeps_aerial.
  - apply dt_pstability_keeps_marine.
  - apply dt_fstability_keeps_aerial.
  - apply dt_fstability_keeps_marine.
  - apply (sedflux_keeps CDaerial).
  - apply (sedflux_keeps CDmarine).
  - apply (sedflux_keeps CFL).
Qed.

(** The stability methods do overwrite [CFL]. *)
Example dt_pstability_overwrites_CFL :
  CFL (self (snd (dt_pstability 0 [] edges_world))) <> CFL (self edges_world).
Proof. vm_compute. discriminate. Qed.

(** * Further properties of the methods *)

(** X1.  With sequences of one length, an entry of the result of [sedflux]
    is the raw quotient, multiplied by no coefficient, exactly in the places
    where the elevation or the sea level is NaN: there the node is neither
    in [dryIDs] nor in [wetIDs].  Everywhere else it is scaled by exactly
    one of the two coefficients. *)
Theorem sedflux_unordered_elevation :
  forall (s : diffLinear) (h : list ndarray) (diff_flux elevation area : ref)
         (df elev ar : ndarray) (sea : float),
    nth_error h diff_flux = Some df ->
    nth_error h elevation = Some elev ->
    nth_error h area = Some ar ->
    length df = length elev ->
    length ar = length elev ->
    exists flux,
      sedflux diff_flux sea elevation area {| self := s; heap := h |} =
        (Ok (PyArray (length h)), {| self := s; heap := h ++ [flux] |}) /\
      forall i, i < length elev ->
        let d := nth i df 0%float in
        let e := nth i elev 0%float in
        let a := nth i ar 0%float in
        let raw := if (0 <? a)%float then (d / a)%float else 0%float in
        ((is_nan e || is_nan sea)%bool = true -> nth i flux 0%float = raw) /\
        ((is_nan e || is_nan sea)%bool = false ->
           ((sea <=? e)%float = true /\
            nth i flux 0%float = (raw * CDaerial s)%float) \/
           ((sea <=? e)%float = false /\
            nth i flux 0%float = (raw * CDmarine s)%float)).
Proof.
  intros s h diff_flux elevation area df elev ar sea Hdf Helev Har Hld Hla.
  assert (Hok : shape_fault df elev ar = false).
  { unfold shape_fault. apply not_true_is_false. intros H.
    apply existsb_exists in H. destruct H as (i & Hi & Hor).
    apply where_lt in Hi. unfold greater in Hi. rewrite length_map in Hi.
    apply orb_true_iff in Hor. rewrite !Nat.leb_le in Hor. lia. }
  exists (sedflux_array (CDaerial s) (CDmarine s) df sea elev ar).
  split; [apply sedflux_run; assumption|].
  intros i Hi. cbv zeta. rewrite (sedflux_array_nth _ _ _ _ _ _ i Hi).
  unfold node_flux. split.
  - intros Hnan. rewrite orb_comm in Hnan.
    destruct (nan_compares_false _ _ Hnan) as [-> ->]. reflexivity.
  - intros Hnum. rewrite orb_comm in Hnum.
    destruct (leb_or_ltb _ _ Hnum) as [Hdry | Hwet].
    + left. rewrite Hdry. auto.
    + right. destruct (sea <=? nth i elev 0)%float eqn:Hdry.
      * rewrite (leb_ltb_exclusive _ _ Hdry) in Hwet. discriminate.
      * rewrite Hwet. auto.
Qed.

Lemma sedflux_unordered_elevation_witness :
  exists flux,
    sedflux 0 0 1 2
      {| self := {| CDaerial := 0.1; CDmarine := 0.5; CFL := None |};
         heap := [[10; 10]; [nan; -2]; [2; 2]]%float |} =
      (Ok (PyArray 3),
       {| self := {| CDaerial := 0.1; CDmarine := 0.5; CFL := None |};
          heap := [[10; 10]; [nan; -2]; [2; 2]]%float ++ [flux] |}) /\
    forall i, i < 2 ->
      let d := nth i [10; 10]%float 0%float in
      let e := nth i [nan; -2]%float 0%float in
      let a := nth i [2; 2]%float 0%float in
      let raw := if (0 <? a)%float then (d / a)%float else 0%float in
      ((is_nan e || is_nan 0)%bool = true -> nth i flux 0%float = raw) /\
      ((is_nan e || is_nan 0)%bool = false ->
         ((0 <=? e)%float = true /\ nth i flux 0%float = (raw * 0.1)%float) \/
         ((0 <=? e)%float = false /\ nth i flux 0%float = (raw * 0.5)%float)).
Proof.
  exact (sedflux_unordered_elevation
           {| CDaerial := 0.1; CDmarine := 0.5; CFL := None |}
           [[10; 10]; [nan; -2]; [2; 2]]%float 0 1 2
           [10; 10]%float [nan; -2]%float [2; 2]%float 0%float
           eq_refl eq_refl eq_refl eq_refl eq_refl).
Defined.

(** A NaN elevation passes the raw quotient 5 through; the wet node gets
    [5 * 0.5]. *)
Example sedflux_nan_elevation :
  fst (sedflux 0 0 1 2
         {| self := {| CDaerial := 0.1; CDmarine := 0.5; CFL := None |};
            heap := [[10; 10]; [nan; -2]; [2; 2]]%float |}) = Ok (PyArray 3) /\
  nth_error
    (heap (snd (sedflux 0 0 1 2
         {| self := {| CDaerial := 0.1; CDmarine := 0.5; CFL := None |};
            heap := [[10; 10]; [nan; -2]; [2; 2]]%float |}))) 3 =
  Some [5; 2.5]%float.
Proof. split; vm_compute; reflexivity. Qed.

(** ** The value the reduction stores *)

Section ReductionFacts.

Lemma is_minimum_of_ordered m l :
  all_ordered l -> is_minimum_of m l -> Binary64.is_ordered m = true.
Proof.
  intros Hl [Hin _]. unfold all_ordered in Hl.
  rewrite Forall_forall in Hl. auto.
Qed.

Lemma Allreduce_MIN_is_minimum c peers :
  all_ordered (c :: peers) ->
  is_minimum_of (Allreduce_MIN c peers) (c :: peers).
Proof.
  intros Hord. unfold Allreduce_MIN.
  apply fold_sel_is_minimum; [|exact Hord].
  intros a b Ha Hb. apply MIN_ordered; assumption.
Qed.

Lemma squared_positive_lengths_same e1 e2 :
  (forall x, (0 <? x)%float = true -> (In x e1 <-> In x e2)) ->
  forall y, In y (squared_positive_lengths e1) <->
            In y (squared_positive_lengths e2).
Proof.
  intros Hsame y. unfold squared_positive_lengths, positive_lengths.
  rewrite !in_map_iff. split; intros (x & <- & Hx); exists x;
    (split; [reflexivity|]); apply filter_In in Hx; apply filter_In;
    destruct Hx as [Hin Hpos]; (split; [|exact Hpos]);
    apply (Hsame x Hpos); exact Hin.
Qed.

(** [numpy.amin] of ordered values depends on the set of the entries only. *)
Lemma amin_same_entries l1 l2 :
  all_ordered l1 -> all_ordered l2 ->
  (forall y, In y l1 <-> In y l2) ->
  amin l1 = amin l2.
Proof.
  intros Ho1 Ho2 Hsame. unfold amin.
  destruct l1 as [|x1 l1], l2 as [|x2 l2].
  - reflexivity.
  - exfalso. apply (Hsame x2). left; reflexivity.
  - exfalso. apply (Hsame x1). left; reflexivity.
  - f_equal.
    assert (Hsel : forall a b, Binary64.is_ordered a = true ->
                               Binary64.is_ordered b = true ->
                               minimum a b = if (a <=? b)%float then a else b)
      by (intros a b Ha _; apply minimum_ordered; exact Ha).
    destruct (fold_sel_is_minimum minimum Hsel l1 x1 Ho1) as [Hin Hle].
    apply (is_minimum_of_unique _ _ (x2 :: l2) Ho2).
    + split; [apply Hsame; exact Hin|].
      intros y Hy. apply Hle, Hsame, Hy.
    + apply (fold_sel_is_minimum minimum Hsel l2 x2 Ho2).
Qed.

End ReductionFacts.

(** X2.  With a strictly positive edge length, a positive finite larger
    coefficient and peers that contribute non-negative numbers,
    [dt_pstability] stores the minimum of its local candidate and of the
    candidates of all peers: a value among them that is below each of them,
    and itself a non-negative number (never NaN). *)
Theorem dt_pstability_stores_global_minimum :
  forall (s : diffLinear) (h : list ndarray) (edgelen : ref) (e : ndarray)
         (peers : list float),
    nth_error h edgelen = Some e ->
    (exists x, In x e /\ (0 <? x)%float = true) ->
    Binary64.is_pos_finite (py_max (CDaerial s) (CDmarine s)) = true ->
    all_ordered peers ->
    exists m g,
      is_minimum_of m (squared_positive_lengths e) /\
      dt_pstability edgelen peers {| self := s; heap := h |} =
        (Ok PyNone, {| self := set_CFL g s; heap := h |}) /\
      is_minimum_of g
        ((0.05 * m / py_max (CDaerial s) (CDmarine s))%float :: peers) /\
      Binary64.is_ordered g = true.
Proof.
  intros s h edgelen e peers He Hex Hc Hpeers.
  destruct (amin_squared_is_minimum e Hex) as (m & Hamin & Hmin).
  set (c := (0.05 * m / py_max (CDaerial s) (CDmarine s))%float).
  assert (Hord : all_ordered (c :: peers)).
  { constructor; [|exact Hpeers].
    apply (local_candidate_ordered e); [apply Hmin | exact Hc]. }
  exists m, (Allreduce_MIN c peers).
  split; [exact Hmin|]. split; [|split].
  - rewrite (dt_pstability_run s h edgelen e peers He), Hamin. reflexivity.
  - apply Allreduce_MIN_is_minimum. exact Hord.
  - apply (is_minimum_of_ordered _ (c :: peers) Hord).
    apply Allreduce_MIN_is_minimum. exact Hord.
Qed.

Lemma dt_pstability_stores_global_minimum_witness :
  exists m g,
    is_minimum_of m (squared_positive_lengths [0; 2; 3]%float) /\
    dt_pstability 0 [0.3; 0.12]%float edges_world =
      (Ok PyNone, {| self := set_CFL g (self edges_world);
                     heap := heap edges_world |}) /\
    is_minimum_of g ((0.05 * m / py_max 1 0)%float :: [0.3; 0.12]%float) /\
    Binary64.is_ordered g = true.
Proof.
  apply (dt_pstability_stores_global_minimum
           (self edges_world) (heap edges_world) 0 [0; 2; 3]%float
           [0.3; 0.12]%float eq_refl).
  - exists 2%float. split; [right; left; reflexivity | reflexivity].
  - reflexivity.
  - repeat constructor.
Defined.

(** X3.  [dt_pstability] depends on the edge array only through the set of
    its strictly positive values: two arrays with the same strictly positive
    values, in any order, any number of times each, and with any zero,
    negative or NaN entries besides, give the same outcome and the same
    stored timestep. *)
Theorem dt_pstability_same_positive_lengths :
  forall (s : diffLinear) (h1 h2 : list ndarray) (r1 r2 : ref)
         (e1 e2 : ndarray) (peers : list float),
    nth_error h1 r1 = Some e1 ->
    nth_error h2 r2 = Some e2 ->
    (forall x, (0 <? x)%float = true -> (In x e1 <-> In x e2)) ->
    let run1 := dt_pstability r1 peers {| self := s; heap := h1 |} in
    let run2 := dt_pstability r2 peers {| self := s; heap := h2 |} in
    fst run1 = fst run2 /\ self (snd run1) = self (snd run2).
Proof.
  intros s h1 h2 r1 r2 e1 e2 peers H1 H2 Hsame run1 run2. subst run1 run2.
  rewrite (dt_pstability_run s h1 r1 _ peers H1),
          (dt_pstability_run s h2 r2 _ peers H2),
          (amin_same_entries (squared_positive_lengths e1)
                             (squared_positive_lengths e2)).
  - destruct (amin (squared_positive_lengths e2)); split; reflexivity.
  - apply squared_positive_lengths_ordered.
  - apply squared_positive_lengths_ordered.
  - apply squared_positive_lengths_same. exact Hsame.
Qed.

(** The edges 2 and 3 once, with a NaN, against 3, 2, 2 and a zero. *)
Lemma dt_pstability_same_positive_lengths_witness :
  let s := {| CDaerial := 1; CDmarine := 0; CFL := None |} in
  let run1 := dt_pstability 0 [] {| self := s; heap := [[2; nan; 3]%float] |} in
  let run2 := dt_pstability 0 [] {| self := s; heap := [[3; 2; 2; 0]%float] |} in
  fst run1 = fst run2 /\ self (snd run1) = self (snd run2).
Proof.
  apply (dt_pstability_same_positive_lengths
           {| CDaerial := 1; CDmarine := 0; CFL := None |}
           [[2; nan; 3]%float] [[3; 2; 2; 0]%float] 0 0
           [2; nan; 3]%float [3; 2; 2; 0]%float [] eq_refl eq_refl).
  intros x Hx. split.
  - intros [<- | [<- | [<- | []]]]; simpl; auto. discriminate Hx.
  - intros [<- | [<- | [<- | [<- | []]]]]; simpl; auto. discriminate Hx.
Defined.

(** X4.  A stability call does not read the timestep stored before it.
    After an earlier [dt_pstability] or [dt_fstability], completed or
    failed, [dt_pstability] has the outcome it has without that earlier
    call; when it completes the whole state is the same too (the last call
    wins), and when it raises the state is the one the earlier call left.
    The edge arrays are touched by neither. *)
Theorem stability_last_call_wins :
  forall (diffcfl : ndarray -> float -> result float)
         (s : diffLinear) (h : list ndarray) (r1 r2 : ref) (e1 e2 : ndarray)
         (p1 p2 : list float),
    nth_error h r1 = Some e1 ->
    nth_error h r2 = Some e2 ->
    let w := {| self := s; heap := h |} in
    forall w1,
      w1 = snd (dt_pstability r1 p1 w) \/
      w1 = snd (dt_fstability diffcfl r1 p1 w) ->
      fst (dt_pstability r2 p2 w1) = fst (dt_pstability r2 p2 w) /\
      (forall v, fst (dt_pstability r2 p2 w) = Ok v ->
                 snd (dt_pstability r2 p2 w1) = snd (dt_pstability r2 p2 w)) /\
      (forall x, fst (dt_pstability r2 p2 w) = Raise x ->
                 snd (dt_pstability r2 p2 w1) = w1).
Proof.
  intros diffcfl s h r1 r2 e1 e2 p1 p2 H1 H2 w w1 Hw1. subst w.
  assert (Hshape : exists s1, w1 = {| self := s1; heap := h |} /\
                              CDaerial s1 = CDaerial s /\
                              CDmarine s1 = CDmarine s).
  { rewrite (dt_pstability_run s h r1 e1 p1 H1),
            (dt_fstability_run s h r1 e1 p1 H1) in Hw1.
    destruct Hw1 as [-> | ->].
    - destruct (amin (squared_positive_lengths e1)); cbn [snd]; eauto.
    - destruct (diffcfl e1 _); cbn [snd]; eauto. }
  destruct Hshape as (s1 & -> & Ha & Hm).
  rewrite (dt_pstability_run s1 h r2 e2 p2 H2),
          (dt_pstability_run s h r2 e2 p2 H2), Ha, Hm.
  destruct (amin (squared_positive_lengths e2)); cbn [fst snd].
  - split; [reflexivity|]. split; [|discriminate].
    intros _ _. unfold set_CFL. rewrite Ha, Hm. reflexivity.
  - split; [reflexivity|]. split; [discriminate | reflexivity].
Qed.

(** A first call on the edges [[0, 2, 3]], then a call on [[1, 4]]. *)
Lemma stability_last_call_wins_witness :
  let w := {| self := {| CDaerial := 1; CDmarine := 0; CFL := None |};
              heap := [[0; 2; 3]; [1; 4]]%float |} in
  let w1 := snd (dt_pstability 0 [] w) in
  fst (dt_pstability 1 [] w1) = fst (dt_pstability 1 [] w) /\
  (forall v, fst (dt_pstability 1 [] w) = Ok v ->
             snd (dt_pstability 1 [] w1) = snd (dt_pstability 1 [] w)) /\
  (forall x, fst (dt_pstability 1 [] w) = Raise x ->
             snd (dt_pstability 1 [] w1) = w1).
Proof.
  exact (stability_last_call_wins diffcfl_spec
           {| CDaerial := 1; CDmarine := 0; CFL := None |}
           [[0; 2; 3]; [1; 4]]%float 0 1 [0; 2; 3]%float [1; 4]%float [] []
           eq_refl eq_refl _ (or_introl eq_refl)).
Defined.

(** X5.  The larger coefficient is all a stability method uses of the two:
    two instances whose coefficients, non-negative numbers, have the same
    larger one [mx] (one of the two that is above both) get the same
    outcome and the same stored timestep from [dt_pstability], and from
    [dt_fstability] whatever the kernel; the smaller coefficients may
    differ, and the larger may be the aerial one in one instance and the
    marine one in the other. *)
Theorem stability_uses_larger_coefficient :
  forall (diffcfl : ndarray -> float -> result float)
         (s1 s2 : diffLinear) (h : list ndarray) (edgelen : ref) (e : ndarray)
         (peers : list float) (mx : float),
    nth_error h edgelen = Some e ->
    Binary64.is_ordered (CDaerial s1) = true ->
    Binary64.is_ordered (CDmarine s1) = true ->
    Binary64.is_ordered (CDaerial s2) = true ->
    Binary64.is_ordered (CDmarine s2) = true ->
    (mx = CDaerial s1 \/ mx = CDmarine s1) ->
    (CDaerial s1 <=? mx)%float = true ->
    (CDmarine s1 <=? mx)%float = true ->
    (mx = CDaerial s2 \/ mx = CDmarine s2) ->
    (CDaerial s2 <=? mx)%float = true ->
    (CDmarine s2 <=? mx)%float = true ->
    let p1 := dt_pstability edgelen peers {| self := s1; heap := h |} in
    let p2 := dt_pstability edgelen peers {| self := s2; heap := h |} in
    let f1 := dt_fstability diffcfl edgelen peers {| self := s1; heap := h |} in
    let f2 := dt_fstability diffcfl edgelen peers {| self := s2; heap := h |} in
    (fst p1 = fst p2 /\
     (forall v, fst p1 = Ok v -> CFL (self (snd p1)) = CFL (self (snd p2)))) /\
    (fst f1 = fst f2 /\
     (forall v, fst f1 = Ok v -> CFL (self (snd f1)) = CFL (self (snd f2)))).
Proof.
  intros diffcfl s1 s2 h edgelen e peers mx He Ha1 Hm1 Ha2 Hm2
         Hor1 Hla1 Hlm1 Hor2 Hla2 Hlm2 p1 p2 f1 f2.
  subst p1 p2 f1 f2.
  rewrite (dt_pstability_run s1 h edgelen e peers He),
          (dt_pstability_run s2 h edgelen e peers He),
          (dt_fstability_run s1 h edgelen e peers He),
          (dt_fstability_run s2 h edgelen e peers He),
          (py_max_pinned _ _ mx Ha1 Hm1 Hor1 Hla1 Hlm1),
          (py_max_pinned _ _ mx Ha2 Hm2 Hor2 Hla2 Hlm2).
  split.
  - destruct (amin (squared_positive_lengths e)); cbn [fst snd];
      (split; [reflexivity | intros v Hv; first [reflexivity | discriminate Hv]]).
  - destruct (diffcfl e mx); cbn [fst snd];
      (split; [reflexivity | intros v Hv; first [reflexivity | discriminate Hv]]).
Qed.

(** Coefficients 1 and 0.25 against 0.5 and 1: the larger is 1 in both, the
    smaller ones differ. *)
Lemma stability_uses_larger_coefficient_witness :
  let s1 := {| CDaerial := 1; CDmarine := 0.25; CFL := None |} in
  let s2 := {| CDaerial := 0.5; CDmarine := 1; CFL := None |} in
  let h := [[0; 2; 3]%float] in
  let p1 := dt_pstability 0 [] {| self := s1; heap := h |} in
  let p2 := dt_pstability 0 [] {| self := s2; heap := h |} in
  let f1 := dt_fstability diffcfl_spec 0 [] {| self := s1; heap := h |} in
  let f2 := dt_fstability diffcfl_spec 0 [] {| self := s2; heap := h |} in
  (fst p1 = fst p2 /\
   (forall v, fst p1 = Ok v -> CFL (self (snd p1)) = CFL (self (snd p2)))) /\
  (fst f1 = fst f2 /\
   (forall v, fst f1 = Ok v -> CFL (self (snd f1)) = CFL (self (snd f2)))).
Proof.
  exact (stability_uses_larger_coefficient diffcfl_spec
           {| CDaerial := 1; CDmarine := 0.25; CFL := None |}
           {| CDaerial := 0.5; CDmarine := 1; CFL := None |}
           [[0; 2; 3]%float] 0 [0; 2; 3]%float [] 1%float
           eq_refl eq_refl eq_refl eq_refl eq_refl
           (or_introl eq_refl) eq_refl eq_refl
           (or_intror eq_refl) eq_refl eq_refl).
Defined.

(** The smaller coefficient does not enter: 0.05 * 4 / 1 in both. *)
Example stability_larger_coefficient_values :
  CFL (self (snd (dt_pstability 0 []
         {| self := {| CDaerial := 1; CDmarine := 0.25; CFL := None |};
            heap := [[0; 2; 3]%float] |}))) = Some 0.2%float /\
  CFL (self (snd (dt_pstability 0 []
         {| self := {| CDaerial := 0.5; CDmarine := 1; CFL := None |};
            heap := [[0; 2; 3]%float] |}))) = Some 0.2%float.
Proof. split; vm_compute; reflexivity. Qed.

(** ** Further properties of the flux *)

Section FluxFacts.

Lemma sedflux_same_coefficients s s' h diff_flux elevation area df elev ar sea :
  nth_error h diff_flux = Some df ->
  nth_error h elevation = Some elev ->
  nth_error h area = Some ar ->
  CDaerial s' = CDaerial s ->
  CDmarine s' = CDmarine s ->
  fst (sedflux diff_flux sea elevation area {| self := s'; heap := h |}) =
    fst (sedflux diff_flux sea elevation area {| self := s; heap := h |}) /\
  heap (snd (sedflux diff_flux sea elevation area {| self := s'; heap := h |})) =
    heap (snd (sedflux diff_flux sea elevation area {| self := s; heap := h |})).
Proof.
  intros Hdf Helev Har Ha Hm.
  destruct (shape_fault df elev ar) eqn:Hsf.
  - rewrite !(sedflux_fault _ h _ _ _ df elev ar sea Hdf Helev Har Hsf).
    split; reflexivity.
  - rewrite !(sedflux_run _ h _ _ _ df elev ar sea Hdf Helev Har Hsf), Ha, Hm.
    split; reflexivity.
Qed.

Lemma stability_world s h edgelen peers diffcfl w1 :
  w1 = snd (dt_pstability edgelen peers {| self := s; heap := h |}) \/
  w1 = snd (dt_fstability diffcfl edgelen peers {| self := s; heap := h |}) ->
  exists s1, w1 = {| self := s1; heap := h |} /\
             CDaerial s1 = CDaerial s /\ CDmarine s1 = CDmarine s.
Proof.
  unfold dt_pstability, dt_fstability, bind, load, lift, getattr,
    setattr_CFL, ret.
  cbn [heap self].
  intros [-> | ->]; destruct (nth_error h edgelen) as [e|]; cbn [snd]; eauto.
  - destruct (take _ _) as [sel|]; cbn [snd]; eauto.
    destruct (amin _); cbn [snd]; eauto.
  - destruct (diffcfl e _); cbn [snd]; eauto.
Qed.

(** A zero divided by a positive value, times a finite value, is a zero. *)
Lemma zero_quotient_scaled d a c :
  (d =? 0)%float = true -> (0 <? a)%float = true ->
  Binary64.is_finite c = true ->
  (d / a =? 0)%float = true /\ (d / a * c =? 0)%float = true.
Proof.
  intros Hd Ha. unfold Binary64.is_finite.
  rewrite classify_spec, !eqb_spec, mul_spec, div_spec.
  rewrite eqb_spec in Hd. change (Prim2SF 0) with (S754_zero false) in *.
  unfold SF64classify, SFclassify.
  destruct (positive_sf a Ha) as [-> | (ma & ea & ->)];
    destruct (Prim2SF d) as [[|]|[|]| |[|] md ed];
    try discriminate Hd;
    destruct (Prim2SF c) as [[|]|[|]| |[|] mc ec];
    try destruct (Z.eqb (Zpos (digits2_pos mc)) prec);
    intros Hc; try discriminate Hc; split; reflexivity.
Qed.

End FluxFacts.

Section FluxRuns.

Lemma equal_lengths_no_fault df elev ar :
  length df = length elev -> length ar = length elev ->
  shape_fault df elev ar = false.
Proof.
  intros Hld Hla. unfold shape_fault. apply not_true_is_false. intros H.
  apply existsb_exists in H. destruct H as (i & Hi & Hor).
  apply where_lt in Hi. unfold greater in Hi. rewrite length_map in Hi.
  apply orb_true_iff in Hor. rewrite !Nat.leb_le in Hor. lia.
Qed.

End FluxRuns.

(** X6.  [sedflux] does not read the stored timestep: called after a
    stability method, completed or failed, it has the outcome and leaves
    the arrays it has when called before it. *)
Theorem sedflux_after_stability :
  forall (diffcfl : ndarray -> float -> result float)
         (s : diffLinear) (h : list ndarray) (edgelen : ref)
         (peers : list float) (diff_flux elevation area : ref)
         (df elev ar : ndarray) (sea : float),
    nth_error h diff_flux = Some df ->
    nth_error h elevation = Some elev ->
    nth_error h area = Some ar ->
    let w := {| self := s; heap := h |} in
    forall w1,
      w1 = snd (dt_pstability edgelen peers w) \/
      w1 = snd (dt_fstability diffcfl edgelen peers w) ->
      fst (sedflux diff_flux sea elevation area w1) =
        fst (sedflux diff_flux sea elevation area w) /\
      heap (snd (sedflux diff_flux sea elevation area w1)) =
        heap (snd (sedflux diff_flux sea elevation area w)).
Proof.
  intros diffcfl s h edgelen peers diff_flux elevation area df elev ar sea
         Hdf Helev Har w w1 Hw1. subst w.
  destruct (stability_world s h edgelen peers diffcfl w1 Hw1)
    as (s1 & -> & Ha & Hm).
  apply (sedflux_same_coefficients s s1 h _ _ _ df elev ar);
    assumption.
Qed.

(** The timestep of the edges [[0, 2, 3]] computed before the wet/dry flux. *)
Lemma sedflux_after_stability_witness :
  let w := {| self := {| CDaerial := 0.1; CDmarine := 0.5; CFL := None |};
              heap := [[10; 10]; [5; -2]; [2; 2]; [0; 2; 3]]%float |} in
  let w1 := snd (dt_pstability 3 [] w) in
  fst (sedflux 0 0 1 2 w1) = fst (sedflux 0 0 1 2 w) /\
  heap (snd (sedflux 0 0 1 2 w1)) = heap (snd (sedflux 0 0 1 2 w)).
Proof.
  exact (sedflux_after_stability diffcfl_spec
           {| CDaerial := 0.1; CDmarine := 0.5; CFL := None |}
           [[10; 10]; [5; -2]; [2; 2]; [0; 2; 3]]%float 3 [] 0 1 2
           [10; 10]%float [5; -2]%float [2; 2]%float 0%float
           eq_refl eq_refl eq_refl _ (or_introl eq_refl)).
Defined.

(** X7.  Two calls of [sedflux] on the same inputs, with sea levels [sea1]
    then [sea2], return two different array objects; the second call leaves
    the first result as it was, and its own result is the one it gives
    without the first call. *)
Theorem sedflux_twice :
  forall (s : diffLinear) (h : list ndarray) (diff_flux elevation area : ref)
         (df elev ar : ndarray) (sea1 sea2 : float),
    nth_error h diff_flux = Some df ->
    nth_error h elevation = Some elev ->
    nth_error h area = Some ar ->
    length df = length elev ->
    length ar = length elev ->
    let w := {| self := s; heap := h |} in
    exists flux1 flux2,
      sedflux diff_flux sea1 elevation area w =
        (Ok (PyArray (length h)), {| self := s; heap := h ++ [flux1] |}) /\
      sedflux diff_flux sea2 elevation area w =
        (Ok (PyArray (length h)), {| self := s; heap := h ++ [flux2] |}) /\
      sedflux diff_flux sea2 elevation area
          (snd (sedflux diff_flux sea1 elevation area w)) =
        (Ok (PyArray (S (length h))),
         {| self := s; heap := h ++ [flux1; flux2] |}).
Proof.
  intros s h diff_flux elevation area df elev ar sea1 sea2
         Hdf Helev Har Hld Hla w. subst w.
  pose proof (equal_lengths_no_fault df elev ar Hld Hla) as Hok.
  exists (sedflux_array (CDaerial s) (CDmarine s) df sea1 elev ar),
         (sedflux_array (CDaerial s) (CDmarine s) df sea2 elev ar).
  rewrite !(sedflux_run s h _ _ _ df elev ar _ Hdf Helev Har Hok).
  split; [reflexivity|]. split; [reflexivity|]. cbn [snd].
  rewrite (sedflux_run s (h ++ [_]) _ _ _ df elev ar sea2
             (heap_old _ _ _ _ Hdf) (heap_old _ _ _ _ Helev)
             (heap_old _ _ _ _ Har) Hok).
  rewrite length_app, Nat.add_1_r, <- app_assoc. reflexivity.
Qed.

Lemma sedflux_twice_witness :
  let w := wet_dry_world in
  exists flux1 flux2,
    sedflux 0 0 1 2 w =
      (Ok (PyArray 3), {| self := self w; heap := heap w ++ [flux1] |}) /\
    sedflux 0 6 1 2 w =
      (Ok (PyArray 3), {| self := self w; heap := heap w ++ [flux2] |}) /\
    sedflux 0 6 1 2 (snd (sedflux 0 0 1 2 w)) =
      (Ok (PyArray 4), {| self := self w; heap := heap w ++ [flux1; flux2] |}).
Proof.
  exact (sedflux_twice (self wet_dry_world) (heap wet_dry_world) 0 1 2
           [10; 10]%float [5; -2]%float [2; 2]%float 0%float 6%float
           eq_refl eq_refl eq_refl eq_refl eq_refl).
Defined.

(** X8.  With sequences of one length and finite coefficients, a node whose
    accumulated flux is zero has a zero flux, whatever its area and its
    elevation. *)
Theorem sedflux_zero_accumulator :
  forall (s : diffLinear) (h : list ndarray) (diff_flux elevation area : ref)
         (df elev ar : ndarray) (sea : float),
    nth_error h diff_flux = Some df ->
    nth_error h elevation = Some elev ->
    nth_error h area = Some ar ->
    length df = length elev ->
    length ar = length elev ->
    Binary64.is_finite (CDaerial s) = true ->
    Binary64.is_finite (CDmarine s) = true ->
    exists flux,
      sedflux diff_flux sea elevation area {| self := s; heap := h |} =
        (Ok (PyArray (length h)), {| self := s; heap := h ++ [flux] |}) /\
      forall i, i < length elev ->
        (nth i df 0 =? 0)%float = true ->
        (nth i flux 0 =? 0)%float = true.
Proof.
  intros s h diff_flux elevation area df elev ar sea
         Hdf Helev Har Hld Hla Hfa Hfm.
  pose proof (equal_lengths_no_fault df elev ar Hld Hla) as Hok.
  exists (sedflux_array (CDaerial s) (CDmarine s) df sea elev ar).
  split; [apply sedflux_run; assumption|].
  intros i Hi Hd. rewrite (sedflux_array_nth _ _ _ _ _ _ i Hi).
  unfold node_flux.
  destruct (0 <? nth i ar 0)%float eqn:Hpos.
  - destruct (zero_quotient_scaled _ _ (CDaerial s) Hd Hpos Hfa) as [Hq Hqa].
    destruct (zero_quotient_scaled _ _ (CDmarine s) Hd Hpos Hfm) as [_ Hqm].
    destruct (sea <=? nth i elev 0)%float; [exact Hqa|].
    destruct (nth i elev 0 <? sea)%float; [exact Hqm | exact Hq].
  - destruct (sea <=? nth i elev 0)%float; [apply zero_mul_finite, Hfa|].
    destruct (nth i elev 0 <? sea)%float; [apply zero_mul_finite, Hfm|].
    reflexivity.
Qed.

(** A flat node between two sloping ones. *)
Lemma sedflux_zero_accumulator_witness :
  let s := {| CDaerial := 0.1; CDmarine := 0.5; CFL := None |} in
  let h := [[10; 0; -4]; [5; 3; -2]; [2; 2; 2]]%float in
  exists flux,
    sedflux 0 0 1 2 {| self := s; heap := h |} =
      (Ok (PyArray 3), {| self := s; heap := h ++ [flux] |}) /\
    forall i, i < 3 ->
      (nth i [10; 0; -4]%float 0 =? 0)%float = true ->
      (nth i flux 0 =? 0)%float = true.
Proof.
  exact (sedflux_zero_accumulator
           {| CDaerial := 0.1; CDmarine := 0.5; CFL := None |}
           [[10; 0; -4]; [5; 3; -2]; [2; 2; 2]]%float 0 1 2
           [10; 0; -4]%float [5; 3; -2]%float [2; 2; 2]%float 0%float
           eq_refl eq_refl eq_refl eq_refl eq_refl eq_refl eq_refl).
Defined.

(** ** Negation commutes with the arithmetic of the flux *)

Section OppositeFacts.

Lemma binary_round_aux_opp sx mx ex lx :
  SFopp (binary_round_aux prec emax sx mx ex lx) =
  binary_round_aux prec emax (negb sx) mx ex lx.
Proof.
  unfold binary_round_aux.
  destruct (shr_fexp prec emax mx ex lx) as [mrs' e'].
  destruct (shr_fexp prec emax _ e' loc_Exact) as [mrs'' e''].
  destruct (shr_m mrs''); try reflexivity.
  destruct (Z.leb _ _); reflexivity.
Qed.

Lemma opp_div x y : (- x / y)%float = (- (x / y))%float.
Proof.
  apply Prim2SF_inj. rewrite opp_spec, !div_spec, opp_spec.
  unfold SF64div, SFdiv.
  destruct (Prim2SF x) as [sx|sx| |sx mx ex],
           (Prim2SF y) as [sy|sy| |sy my ey];
    simpl; try reflexivity;
    try (destruct sx, sy; reflexivity).
  destruct (SFdiv_core_binary prec emax (Zpos mx) ex (Zpos my) ey)
    as [[mz ez] lz].
  rewrite binary_round_aux_opp. f_equal. destruct sx, sy; reflexivity.
Qed.

Lemma opp_mul x y : (- x * y)%float = (- (x * y))%float.
Proof.
  apply Prim2SF_inj. rewrite opp_spec, !mul_spec, opp_spec.
  unfold SF64mul, SFmul.
  destruct (Prim2SF x) as [sx|sx| |sx mx ex],
           (Prim2SF y) as [sy|sy| |sy my ey];
    simpl; try reflexivity;
    try (destruct sx, sy; reflexivity).
  rewrite binary_round_aux_opp. f_equal. destruct sx, sy; reflexivity.
Qed.

End OppositeFacts.

(** X9.  [sedflux] is odd in the accumulated flux on the nodes of positive
    area: with every entry of [diff_flux] negated and the other inputs
    unchanged, the flux of such a node is NaN exactly when it was NaN, and
    when it is a number it is the exact negative of what it was (deposition
    mirrors erosion). *)
Theorem sedflux_negated_accumulator :
  forall (s : diffLinear) (h : list ndarray)
         (diff_flux neg_flux elevation area : ref)
         (df elev ar : ndarray) (sea : float),
    nth_error h diff_flux = Some df ->
    nth_error h neg_flux = Some (map PrimFloat.opp df) ->
    nth_error h elevation = Some elev ->
    nth_error h area = Some ar ->
    length df = length elev ->
    length ar = length elev ->
    let w := {| self := s; heap := h |} in
    exists flux nflux,
      sedflux diff_flux sea elevation area w =
        (Ok (PyArray (length h)), {| self := s; heap := h ++ [flux] |}) /\
      sedflux neg_flux sea elevation area w =
        (Ok (PyArray (length h)), {| self := s; heap := h ++ [nflux] |}) /\
      forall i, i < length elev ->
        (0 <? nth i ar 0)%float = true ->
        is_nan (nth i nflux 0%float) = is_nan (nth i flux 0%float) /\
        (is_nan (nth i flux 0%float) = false ->
         nth i nflux 0%float = (- nth i flux 0)%float).
Proof.
  intros s h diff_flux neg_flux elevation area df elev ar sea
         Hdf Hnf Helev Har Hld Hla w. subst w.
  pose proof (equal_lengths_no_fault df elev ar Hld Hla) as Hok.
  assert (Hok' : shape_fault (map PrimFloat.opp df) elev ar = false)
    by (apply equal_lengths_no_fault; [rewrite length_map|]; assumption).
  exists (sedflux_array (CDaerial s) (CDmarine s) df sea elev ar),
         (sedflux_array (CDaerial s) (CDmarine s)
            (map PrimFloat.opp df) sea elev ar).
  split; [apply sedflux_run; assumption|].
  split; [apply sedflux_run; assumption|].
  intros i Hi Hpos.
  assert (Hneg : nth i (sedflux_array (CDaerial s) (CDmarine s)
                          (map PrimFloat.opp df) sea elev ar) 0%float =
                 (- nth i (sedflux_array (CDaerial s) (CDmarine s)
                             df sea elev ar) 0)%float).
  { rewrite !(sedflux_array_nth _ _ _ _ _ _ i Hi).
    rewrite (nth_indep _ 0%float (PrimFloat.opp 0))
      by (rewrite length_map; lia).
    rewrite map_nth. unfold node_flux. rewrite Hpos, opp_div.
    destruct (sea <=? nth i elev 0)%float; [apply opp_mul|].
    destruct (nth i elev 0 <? sea)%float; [apply opp_mul | reflexivity]. }
  split.
  - rewrite Hneg. apply is_nan_opp.
  - intros _. exact Hneg.
Qed.

Lemma sedflux_negated_accumulator_witness :
  let s := {| CDaerial := 0.1; CDmarine := 0.5; CFL := None |} in
  let h := [[10; -3]; [-10; 3]; [5; -2]; [2; 4]]%float in
  let w := {| self := s; heap := h |} in
  exists flux nflux,
    sedflux 0 0 2 3 w =
      (Ok (PyArray 4), {| self := s; heap := h ++ [flux] |}) /\
    sedflux 1 0 2 3 w =
      (Ok (PyArray 4), {| self := s; heap := h ++ [nflux] |}) /\
    forall i, i < 2 ->
      (0 <? nth i [2; 4]%float 0)%float = true ->
      is_nan (nth i nflux 0%float) = is_nan (nth i flux 0%float) /\
      (is_nan (nth i flux 0%float) = false ->
       nth i nflux 0%float = (- nth i flux 0)%float).
Proof.
  exact (sedflux_negated_accumulator
           {| CDaerial := 0.1; CDmarine := 0.5; CFL := None |}
           [[10; -3]; [-10; 3]; [5; -2]; [2; 4]]%float 0 1 2 3
           [10; -3]%float [5; -2]%float [2; 4]%float 0%float
           eq_refl eq_refl eq_refl eq_refl eq_refl eq_refl).
Defined.

(** X10.  When the two coefficients are equal the sea level does not
    matter: with sequences of one length, every node whose elevation is not
    NaN has the flux [raw * CDaerial], for every sea level that is not NaN. *)
Theorem sedflux_equal_coefficients :
  forall (s : diffLinear) (h : list ndarray) (diff_flux elevation area : ref)
         (df elev ar : ndarray) (sea : float),
    nth_error h diff_flux = Some df ->
    nth_error h elevation = Some elev ->
    nth_error h area = Some ar ->
    length df = length elev ->
    length ar = length elev ->
    CDmarine s = CDaerial s ->
    is_nan sea = false ->
    exists flux,
      sedflux diff_flux sea elevation area {| self := s; heap := h |} =
        (Ok (PyArray (length h)), {| self := s; heap := h ++ [flux] |}) /\
      forall i, i < length elev ->
        is_nan (nth i elev 0%float) = false ->
        let d := nth i df 0%float in
        let a := nth i ar 0%float in
        let raw := if (0 <? a)%float then (d / a)%float else 0%float in
        nth i flux 0%float = (raw * CDaerial s)%float.
Proof.
  intros s h diff_flux elevation area df elev ar sea
         Hdf Helev Har Hld Hla Heq Hsea.
  pose proof (equal_lengths_no_fault df elev ar Hld Hla) as Hok.
  exists (sedflux_array (CDaerial s) (CDmarine s) df sea elev ar).
  split; [apply sedflux_run; assumption|].
  intros i Hi He. cbv zeta. rewrite (sedflux_array_nth _ _ _ _ _ _ i Hi).
  unfold node_flux. rewrite Heq.
  destruct (sea <=? nth i elev 0)%float eqn:Hdry; [reflexivity|].
  destruct (leb_or_ltb sea (nth i elev 0%float)) as [H | H].
  - rewrite Hsea, He. reflexivity.
  - congruence.
  - rewrite H. reflexivity.
Qed.

Lemma sedflux_equal_coefficients_witness :
  let s := {| CDaerial := 0.5; CDmarine := 0.5; CFL := None |} in
  let h := [[10; 10]; [5; -2]; [2; 2]]%float in
  exists flux,
    sedflux 0 3 1 2 {| self := s; heap := h |} =
      (Ok (PyArray 3), {| self := s; heap := h ++ [flux] |}) /\
    forall i, i < 2 ->
      is_nan (nth i [5; -2]%float 0%float) = false ->
      let d := nth i [10; 10]%float 0%float in
      let a := nth i [2; 2]%float 0%float in
      let raw := if (0 <? a)%float then (d / a)%float else 0%float in
      nth i flux 0%float = (raw * 0.5)%float.
Proof.
  exact (sedflux_equal_coefficients
           {| CDaerial := 0.5; CDmarine := 0.5; CFL := None |}
           [[10; 10]; [5; -2]; [2; 2]]%float 0 1 2
           [10; 10]%float [5; -2]%float [2; 2]%float 3%float
           eq_refl eq_refl eq_refl eq_refl eq_refl eq_refl eq_refl).
Defined.
